(** * PySupervisor: the TODO-block engine of [todo_cli.py]

    A shallow embedding of the functions of [src/todo_cli.py]
    ([parse_todo_block], [ensure_todo_block], [format_priority],
    [build_task_line], the sort keys and the sort dispatch of [list], and
    what [scan], [list], [clean], [add] and [complete] do on one file)
    together with the Python built-ins they call ([Path.read_text],
    [str.strip], [str.splitlines], [str.join], [str.lower], [in], [sorted],
    [re.search], [re.sub], [datetime.strptime]).

    Conventions.
    - A Python [str] is a [list ascii]: the characters are the code points
      0..255 (Latin-1), and every character class ([str.isspace], the line
      boundaries of [splitlines], [\d], [\w], [\s], [str.lower]) is Python's
      class restricted to that range.
    - A file is the text it stores, its line ends as they are stored;
      [read_text] is what [Path.read_text] makes of it, and the text given to
      [Path.write_text] is stored as it is, as on every system whose line
      separator is the line feed.  [None] stands for a file that does not
      exist.
    - An exception or a non-zero exit is a constructor of [outcome], or
      [None] in the helpers that can only fail in one way. *)

From Stdlib Require Import List Ascii Strings.Byte Bool Arith NArith ZArith Lia.
From Stdlib Require Import Permutation Sorted.
From Stdlib Require Strings.String Numbers.DecimalString.
Import ListNotations.

#[local] Set Warnings "-via-type-mismatch,-via-type-remapping".

(** ** Strings *)

Definition str := list ascii.

Inductive str_lit : Set :=
| LitNil
| LitCons (c : ascii) (s : str_lit).

Fixpoint lit_of_bytes (l : list byte) : str_lit :=
  match l with
  | [] => LitNil
  | b :: l' => LitCons (ascii_of_byte b) (lit_of_bytes l')
  end.

Fixpoint bytes_of_lit (s : str_lit) : list byte :=
  match s with
  | LitNil => []
  | LitCons c s' => byte_of_ascii c :: bytes_of_lit s'
  end.

Declare Scope str_scope.
Delimit Scope str_scope with str.
String Notation str lit_of_bytes bytes_of_lit
  (via str_lit mapping [[nil] => LitNil, [cons] => LitCons]) : str_scope.
Open Scope list_scope.
Open Scope str_scope.

(** The characters the program names by escape sequences. *)
Definition LF : ascii := ascii_of_nat 10.
Definition CR : ascii := ascii_of_nat 13.
Definition BACKSLASH : ascii := ascii_of_nat 92.

Definition code (c : ascii) : N := N_of_ascii c.

Definition in_range (lo hi : N) (c : ascii) : bool :=
  ((lo <=? code c) && (code c <=? hi))%N.

(** [str.isspace] on one character, which is also the class [\s] of [re]:
    TAB..CR, FS..US, SPACE, NEL (0x85) and NBSP (0xA0). *)
Definition is_space (c : ascii) : bool :=
  in_range 9 13 c || in_range 28 32 c || (code c =? 133)%N || (code c =? 160)%N.

(** The line boundaries of [str.splitlines]: LF, VT, FF, CR, FS, GS, RS and
    NEL. *)
Definition is_linebreak (c : ascii) : bool :=
  in_range 10 13 c || in_range 28 30 c || (code c =? 133)%N.

(** The class [\d] of [re] (decimal digits). *)
Definition is_digit (c : ascii) : bool := in_range 48 57 c.

Definition is_ascii_letter (c : ascii) : bool :=
  in_range 65 90 c || in_range 97 122 c.

(** The class [\w] of [re]: [str.isalnum] or the underscore.  Beyond ASCII
    the alphanumerics of Latin-1 are the letters, the ordinal indicators, the
    micro sign, the superscript digits and the vulgar fractions. *)
Definition is_word (c : ascii) : bool :=
  is_digit c || is_ascii_letter c || (code c =? 95)%N
  || (code c =? 170)%N || in_range 178 179 c || (code c =? 181)%N
  || in_range 185 186 c || in_range 188 190 c
  || in_range 192 214 c || in_range 216 246 c || in_range 248 255 c.

(** [str.lower] on one character: A..Z and the upper-case letters of
    Latin-1 move up by 32. *)
Definition lower_char (c : ascii) : ascii :=
  if in_range 65 90 c || in_range 192 214 c || in_range 216 222 c
  then ascii_of_N (code c + 32)
  else c.

Definition lower (s : str) : str := map lower_char s.

(** Comparison of strings as Python compares [str]: by code point, the
    shorter string first when one is a prefix of the other. *)
Fixpoint str_compare (a b : str) : comparison :=
  match a, b with
  | [], [] => Eq
  | [], _ :: _ => Lt
  | _ :: _, [] => Gt
  | x :: a', y :: b' =>
      match (code x ?= code y)%N with
      | Eq => str_compare a' b'
      | c => c
      end
  end.

Definition str_eqb (a b : str) : bool :=
  match str_compare a b with Eq => true | _ => false end.

Definition str_leb (a b : str) : bool :=
  match str_compare a b with Gt => false | _ => true end.

Definition str_ltb (a b : str) : bool :=
  match str_compare a b with Lt => true | _ => false end.

(** [s.startswith(p)]. *)
Fixpoint startswith (p s : str) : bool :=
  match p, s with
  | [], _ => true
  | _ :: _, [] => false
  | a :: p', b :: s' => Ascii.eqb a b && startswith p' s'
  end.

(** [s.partition(p)] without the separator: the text before and after the
    first occurrence of [p], or [None] when [p] does not occur. *)
Fixpoint partition (p s : str) {struct s} : option (str * str) :=
  if startswith p s then Some ([], skipn (length p) s)
  else match s with
       | [] => None
       | c :: s' =>
           match partition p s' with
           | Some (a, b) => Some (c :: a, b)
           | None => None
           end
       end.

(** [p in s]. *)
Definition contains (p s : str) : bool :=
  match partition p s with Some _ => true | None => false end.

Fixpoint lstrip (s : str) : str :=
  match s with
  | c :: s' => if is_space c then lstrip s' else s
  | [] => []
  end.

Definition rstrip (s : str) : str := rev (lstrip (rev s)).

(** [s.strip()]. *)
Definition strip (s : str) : str := rstrip (lstrip s).

(** [sep.join(parts)]. *)
Fixpoint join (sep : str) (parts : list str) : str :=
  match parts with
  | [] => []
  | [p] => p
  | p :: rest => p ++ sep ++ join sep rest
  end.

(** [s.splitlines()]: [cur] is the line being read.  A line ends at a line
    boundary, CR LF counting as one; a last line without a boundary is kept
    when it is not empty. *)
Fixpoint splitlines_from (cur : str) (s : str) : list str :=
  match s with
  | [] => match cur with [] => [] | _ => [cur] end
  | c :: s' =>
      if is_linebreak c then
        match s' with
        | d :: s'' =>
            if Ascii.eqb c CR && Ascii.eqb d LF
            then cur :: splitlines_from [] s''
            else cur :: splitlines_from [] s'
        | [] => [cur]
        end
      else splitlines_from (cur ++ [c]) s'
  end.

Definition splitlines (s : str) : list str := splitlines_from [] s.

(** [str(n)] for an [int]. *)
Definition str_of_Z (z : Z) : str :=
  String.list_ascii_of_string (DecimalString.NilZero.string_of_int (Z.to_int z)).

(** ** Reading a file *)

(** [Path.read_text]: the text of the file with universal newlines, every
    CR LF and every other CR read as one LF. *)
Fixpoint read_text (file : str) : str :=
  match file with
  | [] => []
  | c :: r =>
      if Ascii.eqb c CR then
        LF :: match r with
              | d :: r' => if Ascii.eqb d LF then read_text r' else read_text r
              | [] => []
              end
      else c :: read_text r
  end.

(** ** The regular expressions of the program *)

Definition TODO_START : str := "''' <---TODO LIST - START--->".
Definition TODO_END : str := "<---TODO LIST - END--->'''".

(** [re.search] of [START(.*?)END] with [re.DOTALL], the pattern of
    [parse_todo_block], [add], [complete] and [clean]: the match starts at
    the first occurrence of the start marker and, the group being lazy, ends
    with the first end marker that begins after it.  The result is the text
    before the match, group 1 and the text after the match. *)
Definition search_block (text : str) : option (str * str * str) :=
  match partition TODO_START text with
  | None => None
  | Some (pre, rest) =>
      match partition TODO_END rest with
      | None => None
      | Some (inner, post) => Some (pre, inner, post)
      end
  end.

(** A replacement template of [re.sub], as [re] parses it for a pattern
    without groups: literal characters and references to the whole match. *)
Inductive piece : Set :=
| Lit (c : ascii)
| Group0.

Inductive tmode : Set :=
| Plain
| GroupName (seen : bool).

Definition is_octal (c : ascii) : bool := in_range 48 55 c.

Definition digit_value (c : ascii) : N := (code c - 48)%N.

(** The escapes [re] translates in a template: [\a \b \f \n \r \t \v \\]. *)
Definition template_escape (c : ascii) : option ascii :=
  match c with
  | "a"%char => Some (ascii_of_nat 7)
  | "b"%char => Some (ascii_of_nat 8)
  | "f"%char => Some (ascii_of_nat 12)
  | "n"%char => Some (ascii_of_nat 10)
  | "r"%char => Some (ascii_of_nat 13)
  | "t"%char => Some (ascii_of_nat 9)
  | "v"%char => Some (ascii_of_nat 11)
  | "\"%char => Some BACKSLASH
  | _ => None
  end.

Definition emit (p : piece) (r : option (list piece)) : option (list piece) :=
  option_map (cons p) r.

(** [re]'s template parser for a pattern with no group, as of Python 3.12;
    [None] is the exception it raises.  After a backslash: [g<0>] (any count of zeros)
    is the whole match and every other group reference is an error;
    [0], [0o], [0oo] and [ooo] (at most 0o377) are octal character codes and
    every other digit sequence is a reference to a group that does not exist;
    the escapes above are translated; any other ASCII letter is an error; any
    other character is kept with its backslash.  A backslash that ends the
    template is an error. *)
Fixpoint parse_template_in (m : tmode) (t : str) {struct t} : option (list piece) :=
  match m with
  | GroupName seen =>
      match t with
      | [] => None
      | c :: t' =>
          if Ascii.eqb c "0" then parse_template_in (GroupName true) t'
          else if Ascii.eqb c ">" then
            if seen then emit Group0 (parse_template_in Plain t') else None
          else None
      end
  | Plain =>
      match t with
      | [] => Some []
      | c :: t' =>
          if negb (Ascii.eqb c BACKSLASH) then emit (Lit c) (parse_template_in Plain t')
          else
            match t' with
            | [] => None
            | e :: t2 =>
                if Ascii.eqb e "g" then
                  match t2 with
                  | "<"%char :: t3 => parse_template_in (GroupName false) t3
                  | _ => None
                  end
                else if Ascii.eqb e "0" then
                  match t2 with
                  | o1 :: t3 =>
                      if is_octal o1 then
                        match t3 with
                        | o2 :: t4 =>
                            if is_octal o2
                            then emit (Lit (ascii_of_N (8 * digit_value o1 + digit_value o2)))
                                      (parse_template_in Plain t4)
                            else emit (Lit (ascii_of_N (digit_value o1)))
                                      (parse_template_in Plain t3)
                        | [] => emit (Lit (ascii_of_N (digit_value o1)))
                                     (parse_template_in Plain t3)
                        end
                      else emit (Lit zero) (parse_template_in Plain t2)
                  | [] => emit (Lit zero) (parse_template_in Plain t2)
                  end
                else if is_digit e then
                  match t2 with
                  | d2 :: d3 :: t4 =>
                      if is_octal e && is_octal d2 && is_octal d3 then
                        let v := (64 * digit_value e + 8 * digit_value d2 + digit_value d3)%N in
                        if (v <=? 255)%N
                        then emit (Lit (ascii_of_N v)) (parse_template_in Plain t4)
                        else None
                      else None
                  | _ => None
                  end
                else
                  match template_escape e with
                  | Some x => emit (Lit x) (parse_template_in Plain t2)
                  | None =>
                      if is_ascii_letter e then None
                      else emit (Lit c) (emit (Lit e) (parse_template_in Plain t2))
                  end
            end
      end
  end.

Definition parse_template (t : str) : option (list piece) :=
  parse_template_in Plain t.

(** The text a parsed template stands for at the match [m]. *)
Definition expand (tpl : list piece) (m : str) : str :=
  flat_map (fun p => match p with Lit c => [c] | Group0 => m end) tpl.

(** The substitution loop of [re.sub] for the block pattern: every match,
    from left to right, the search resuming where the last match ended.  A
    match is never empty, so [length text] rounds are enough. *)
Fixpoint sub_spans (fuel : nat) (tpl : list piece) (text : str) : str :=
  match fuel with
  | 0 => text
  | S n =>
      match search_block text with
      | None => text
      | Some (pre, inner, post) =>
          pre ++ expand tpl (TODO_START ++ inner ++ TODO_END) ++ sub_spans n tpl post
      end
  end.

(** [re.sub(START.*?END, repl, text, flags=re.DOTALL)]: the template is
    parsed first, then every match is replaced; [None] is [re.error]. *)
Definition re_sub_block (repl text : str) : option str :=
  match parse_template repl with
  | None => None
  | Some tpl => Some (sub_spans (length text) tpl text)
  end.

(** [re.search] of a pattern that matches from a given position: the
    leftmost position where [m] succeeds. *)
Fixpoint search_at {A : Type} (m : str -> option A) (s : str) : option A :=
  match m s with
  | Some r => Some r
  | None =>
      match s with
      | [] => None
      | _ :: s' => search_at m s'
      end
  end.

(** [\s*] followed by [k]: greedy, giving spaces back when [k] fails. *)
Fixpoint spaces_then {A : Type} (k : str -> option A) (s : str) : option A :=
  match s with
  | c :: s' =>
      if is_space c then
        match spaces_then k s' with
        | Some r => Some r
        | None => k s
        end
      else k s
  | [] => k s
  end.

Fixpoint take_while (f : ascii -> bool) (s : str) : str :=
  match s with
  | c :: s' => if f c then c :: take_while f s' else []
  | [] => []
  end.

Fixpoint drop_while (f : ascii -> bool) (s : str) : str :=
  match s with
  | c :: s' => if f c then drop_while f s' else s
  | [] => []
  end.

(** [(\d{4}-\d{2}-\d{2})] at the head of [s]. *)
Definition date_here (s : str) : option str :=
  match s with
  | y1 :: y2 :: y3 :: y4 :: h1 :: m1 :: m2 :: h2 :: d1 :: d2 :: _ =>
      if forallb is_digit [y1; y2; y3; y4; m1; m2; d1; d2]
         && Ascii.eqb h1 "-" && Ascii.eqb h2 "-"
      then Some (firstn 10 s)
      else None
  | _ => None
  end.

(** [(\w+)] at the head of [s]: the longest run of word characters. *)
Definition word_here (s : str) : option str :=
  match take_while is_word s with
  | [] => None
  | w => Some w
  end.

(** [Due:\s*(\d{4}-\d{2}-\d{2})] matched from the head of [s]; group 1. *)
Definition match_due (s : str) : option str :=
  if startswith "Due:" s then spaces_then date_here (skipn 4 s) else None.

(** [Assigned:\s*(\w+)] matched from the head of [s]; group 1. *)
Definition match_assigned (s : str) : option str :=
  if startswith "Assigned:" s then spaces_then word_here (skipn 9 s) else None.

(** [^\(\d+\)] on [s]: the text after the label.  The digits are taken
    greedily; giving one back would leave a digit where [\)] must match. *)
Definition match_label (s : str) : option str :=
  match s with
  | "("%char :: s' =>
      match take_while is_digit s', drop_while is_digit s' with
      | _ :: _, ")"%char :: rest => Some rest
      | _, _ => None
      end
  | _ => None
  end.

(** ** [datetime.strptime(due, "%Y-%m-%d")] *)

Definition orelse {A : Type} (x y : option A) : option A :=
  match x with
  | Some _ => x
  | None => y
  end.

(** The value of a decimal digit. *)
Definition dval (c : ascii) : Z := Z.of_N (digit_value c).

(** [int(s)] for the groups of the date pattern: decimal digits, after an
    optional leading blank. *)
Definition int_of_digits (s : str) : Z :=
  fold_left (fun acc c => 10 * acc + dval c)%Z (lstrip s) 0%Z.

(** Pieces of a pattern, each giving the text it matched and the rest:
    one character of a class, two characters of two classes, and a group
    that must be followed by the literal [-]. *)
Definition one_char (fa : ascii -> bool) (s : str) : option (str * str) :=
  match s with
  | a :: r => if fa a then Some ([a], r) else None
  | _ => None
  end.

Definition two_chars (fa fb : ascii -> bool) (s : str) : option (str * str) :=
  match s with
  | a :: b :: r => if fa a && fb b then Some ([a; b], r) else None
  | _ => None
  end.

Definition then_dash (x : option (str * str)) : option (str * str) :=
  match x with
  | Some (g, h :: r) => if Ascii.eqb h "-" then Some (g, r) else None
  | _ => None
  end.

(** The group [(?P<Y>\d\d\d\d)] followed by the literal [-]. *)
Definition year_dash (s : str) : option (str * str) :=
  then_dash
    match s with
    | y1 :: y2 :: y3 :: y4 :: r =>
        if forallb is_digit [y1; y2; y3; y4] then Some ([y1; y2; y3; y4], r) else None
    | _ => None
    end.

(** The group [(?P<m>1[0-2]|0[1-9]|[1-9])] followed by the literal [-]: the
    alternatives in order, each kept only when the dash follows. *)
Definition month_dash (s : str) : option (str * str) :=
  orelse (then_dash (two_chars (Ascii.eqb "1") (in_range 48 50) s))
    (orelse (then_dash (two_chars (Ascii.eqb "0") (in_range 49 57) s))
       (then_dash (one_char (in_range 49 57) s))).

(** The group [(?P<d>3[0-1]|[1-2]\d|0[1-9]|[1-9]| [1-9])], which ends the
    pattern: the first alternative that matches. *)
Definition day_group (s : str) : option (str * str) :=
  orelse (two_chars (Ascii.eqb "3") (in_range 48 49) s)
    (orelse (two_chars (in_range 49 50) is_digit s)
       (orelse (two_chars (Ascii.eqb "0") (in_range 49 57) s)
          (orelse (one_char (in_range 49 57) s)
             (two_chars (Ascii.eqb " ") (in_range 49 57) s)))).

Definition is_leap (y : Z) : bool :=
  ((y mod 4 =? 0) && (negb (y mod 100 =? 0) || (y mod 400 =? 0)))%Z.

Definition days_in_month (y m : Z) : Z :=
  match m with
  | 2 => if is_leap y then 29 else 28
  | 4 | 6 | 9 | 11 => 30
  | _ => 31
  end%Z.

(** The range checks of the [datetime] constructor. *)
Definition valid_date (y m d : Z) : bool :=
  ((1 <=? y) && (y <=? 9999) && (1 <=? m) && (m <=? 12)
   && (1 <=? d) && (d <=? days_in_month y m))%Z.

(** [strptime]: the format's pattern must match at the head of the string
    and consume all of it, and the fields must make a date; [None] is
    [ValueError].  The digits are the decimal digits of Latin-1, which are
    [0] to [9]; on other text Python's [\d] also takes the decimal digits of
    the other scripts. *)
Definition strptime (due : str) : option (Z * Z * Z) :=
  match year_dash due with
  | None => None
  | Some (ys, r1) =>
      match month_dash r1 with
      | None => None
      | Some (ms, r2) =>
          match day_group r2 with
          | Some (ds, []) =>
              let y := int_of_digits ys in
              let m := int_of_digits ms in
              let d := int_of_digits ds in
              if valid_date y m d then Some (y, m, d) else None
          | _ => None
          end
      end
  end.

(** ** The task block engine *)

(** How a command ends. *)
Inductive outcome : Set :=
| Done                (* the command ran to its end *)
| Exit1               (* [typer.Exit(code=1)] *)
| BadParameter        (* [typer.BadParameter] *)
| ReError.            (* an exception of [re] that nothing catches *)

Definition parse_todo_block (text : str) : option (list str) :=
  match search_block text with
  | None => None
  | Some (_, inner, _) =>
      let content := strip inner in
      match content with
      | [] => Some []
      | _ => Some (splitlines content)
      end
  end.

(** [ensure_todo_block] on a file: whether the markers were added, and the
    file afterwards.  The markers are looked for in the text read; the empty
    block is appended to the file as it is stored. *)
Definition ensure_todo_block (file : str) : bool * str :=
  let text := read_text file in
  if contains TODO_START text && contains TODO_END text
  then (false, file)
  else (true, file ++ [LF] ++ TODO_START ++ [LF] ++ TODO_END ++ [LF]).

Definition format_priority (level : option Z) : str :=
  match level with
  | Some 1%Z => "[LOW]"
  | Some 2%Z => "[MEDIUM]"
  | Some 3%Z => "[HIGH]"
  | Some 4%Z => "[URGENT]"
  | _ => ""
  end.

(** Python's truth value of an optional [int]; an optional [str] is true
    when it is [Some] of a string that is not empty. *)
Definition truthy_int (v : option Z) : bool :=
  match v with
  | Some z => negb (z =? 0)%Z
  | None => false
  end.

(** [build_task_line]; [None] is the [typer.BadParameter] of a due date
    that [strptime] rejects. *)
Definition build_task_line (index : Z) (task : str) (priority : option Z)
    (due assigned : option str) : option str :=
  let parts := ["(" ++ str_of_Z index ++ ")"] in
  let parts := if truthy_int priority then parts ++ [format_priority priority] else parts in
  let parts := parts ++ [task] in
  let dated :=
    match due with
    | Some (c :: d) =>
        match strptime (c :: d) with
        | Some _ => Some (parts ++ ["Due: " ++ c :: d])
        | None => None
        end
    | _ => Some parts
    end in
  match dated with
  | None => None
  | Some parts =>
      let parts :=
        match assigned with
        | Some (c :: a) => parts ++ ["Assigned: " ++ c :: a]
        | _ => parts
        end in
      Some (join " " parts)
  end.

(** *** Listing and sorting *)

Definition extract_due (todo : str) : str :=
  match search_at match_due todo with
  | Some d => d
  | None => "9999-12-31"
  end.

Definition extract_assigned (todo : str) : str :=
  match search_at match_assigned todo with
  | Some w => lower w
  | None => ""
  end.

(** [sorted(todos, key=key)]: Python's sort is stable, so the result is the
    one of any stable sort; here, insertion from the right, an element going
    in front of the first one whose key is not smaller. *)
Fixpoint insert_by (key : str -> str) (x : str) (l : list str) : list str :=
  match l with
  | [] => [x]
  | y :: l' => if str_leb (key x) (key y) then x :: l else y :: insert_by key x l'
  end.

Definition sorted (key : str -> str) (todos : list str) : list str :=
  fold_right (insert_by key) [] todos.

(** [sorted(todos, key=key, reverse=True)]: the list is reversed, sorted and
    reversed again, which keeps equal keys in their input order. *)
Definition sorted_reverse (key : str -> str) (todos : list str) : list str :=
  rev (sorted key (rev todos)).

(** The sort dispatch of [list], on an option already checked against
    [sort_options].  The branch of [descending_id] is
    [list(reversed(todos))], and in the module the name [list] is the command
    itself: it is called with the iterator as its [path], and
    [find_python_files] raises [AttributeError] on it.  [None] is that
    exception. *)
Definition sort_todos (sort : option str) (todos : list str) : option (list str) :=
  match sort with
  | None => Some todos
  | Some k =>
      if str_eqb k "ascending_id" then Some todos
      else if str_eqb k "descending_id" then None
      else if str_eqb k "a-z" then Some (sorted lower todos)
      else if str_eqb k "z-a" then Some (sorted_reverse lower todos)
      else if str_eqb k "ascending_due_date" then Some (sorted extract_due todos)
      else if str_eqb k "descending_due_date" then Some (sorted_reverse extract_due todos)
      else if str_eqb k "a-z_assignedname" then Some (sorted extract_assigned todos)
      else if str_eqb k "z-a_assignedname"
           then Some (sorted_reverse extract_assigned todos)
      else Some todos
  end.

Definition sort_options : list str :=
  ["ascending_id"; "descending_id"; "a-z"; "z-a";
   "ascending_due_date"; "descending_due_date";
   "a-z_assignedname"; "z-a_assignedname"].

Fixpoint enumerate_from {A : Type} (i : nat) (l : list A) : list (nat * A) :=
  match l with
  | [] => []
  | x :: l' => (i, x) :: enumerate_from (S i) l'
  end.

(** What [list] does on one file. *)
Inductive listing : Set :=
| Shown (entries : list (nat * str))   (* the numbered tasks printed; none for the
                                          line of an empty section *)
| InvalidSort                          (* the exit on an invalid sort option, taken
                                          before any file is read *)
| AttributeError.                      (* raised by the sort dispatch, after the
                                          name of the file was printed *)

(** [list] on one file. *)
Definition list_file (sort : option str) (file : str) : listing :=
  match sort with
  | Some (c :: k) =>
      if existsb (str_eqb (c :: k)) sort_options
      then
        match parse_todo_block (read_text file) with
        | Some (t :: todos) =>
            match sort_todos sort (t :: todos) with
            | Some shown => Shown (enumerate_from 0 shown)
            | None => AttributeError
            end
        | _ => Shown []
        end
      else InvalidSort
  | _ =>
      match parse_todo_block (read_text file) with
      | Some todos => Shown (enumerate_from 0 todos)
      | None => Shown []
      end
  end.

(** *** Adding a task *)

Definition new_block (todos : list str) : str :=
  TODO_START ++ [LF] ++ join [LF] todos ++ [LF] ++ TODO_END.

(** The rewriting step of [add] (the spec's [write_block]): when both
    markers occur in the text every span is substituted, otherwise the block
    is appended; [None] is [re.error]. *)
Definition write_block (content : str) (todos : list str) : option str :=
  if contains TODO_START content && contains TODO_END content
  then re_sub_block (new_block todos) content
  else Some (content ++ [LF] ++ new_block todos).

(** [add] on a file: how the command ends, and the file afterwards. *)
Definition add (file : option str) (task : str) (priority : option Z)
    (due assigned : option str) : outcome * option str :=
  match file with
  | None => (Exit1, None)
  | Some stored =>
      let ensured := snd (ensure_todo_block stored) in
      let content := read_text ensured in
      let todos :=
        match parse_todo_block content with
        | Some l => l
        | None => []
        end in
      let new_index := (Z.of_nat (length todos) + 1)%Z in
      match build_task_line new_index task priority due assigned with
      | None => (BadParameter, Some ensured)
      | Some new_task_line =>
          match write_block content (todos ++ [new_task_line]) with
          | None => (ReError, Some ensured)
          | Some content' => (Done, Some content')
          end
      end
  end.

(** *** Completing a task *)

(** [re.sub(r"^\(\d+\)", f"({i+1})", todo)]. *)
Definition renumber (i : nat) (todo : str) : str :=
  match match_label todo with
  | Some rest => "(" ++ str_of_Z (Z.of_nat i + 1) ++ ")" ++ rest
  | None => todo
  end.

(** What [todos.pop(id)] leaves in the list. *)
Definition pop {A : Type} (id : nat) (todos : list A) : list A :=
  firstn id todos ++ skipn (S id) todos.

(** The list step of [complete] (the spec's [complete(lines, id)]): the
    removed line and the renumbered rest, or [None] for the exit on an empty
    list or an id out of range. *)
Definition complete_todos (todos : list str) (id : Z) : option (str * list str) :=
  match todos with
  | [] => None
  | _ =>
      if ((id <? 0) || (id >=? Z.of_nat (length todos)))%Z then None
      else
        let removed := nth (Z.to_nat id) todos [] in
        let rest := pop (Z.to_nat id) todos in
        Some (removed, map (fun it => renumber (fst it) (snd it)) (enumerate_from 0 rest))
  end.

(** [complete] on a file: how the command ends, and the file afterwards. *)
Definition complete (file : option str) (id : Z) : outcome * option str :=
  match file with
  | None => (Exit1, None)
  | Some stored =>
      let content := read_text stored in
      match parse_todo_block content with
      | None => (Exit1, file)
      | Some todos =>
          match complete_todos todos id with
          | None => (Exit1, file)
          | Some (_, updated_todos) =>
              match re_sub_block (new_block updated_todos) content with
              | None => (ReError, file)
              | Some content' => (Done, Some content')
              end
          end
      end
  end.

(** *** Scanning a file *)

(** What [scan] prints for a file. *)
Inductive scan_report : Set :=
| Initialized                   (* the block was added *)
| Listed (todos : list str)     (* the tasks of a block that has some *)
| EmptyBlock.                   (* no task, or no block that can be read *)

(** [scan] on one file: what is printed, and the file afterwards. *)
Definition scan_file (file : str) : scan_report * str :=
  let (added, file') := ensure_todo_block file in
  let todos := parse_todo_block (read_text file') in
  (if added then Initialized
   else match todos with
        | Some (t :: l) => Listed (t :: l)
        | _ => EmptyBlock
        end,
   file').

(** *** Removing the blocks *)

(** The pattern of [clean] is [\n?START.*?END\n?]: the match is the span of
    the block pattern, with the line feed just in front of it and the line
    feed just after it when they are there. *)
Definition drop_last_lf (pre : str) : str :=
  match rev pre with
  | c :: r => if Ascii.eqb c LF then rev r else pre
  | [] => pre
  end.

Definition drop_first_lf (post : str) : str :=
  match post with
  | c :: r => if Ascii.eqb c LF then r else post
  | [] => []
  end.

(** The substitution loop of [re.sub] for that pattern and an empty
    replacement: every match is removed, the search resuming after the line
    feed that ended the last match. *)
Fixpoint strip_spans (fuel : nat) (text : str) : str :=
  match fuel with
  | 0 => text
  | S n =>
      match search_block text with
      | None => text
      | Some (pre, _, post) => drop_last_lf pre ++ strip_spans n (drop_first_lf post)
      end
  end.

(** [clean] on one file: whether the file was rewritten, and the file
    afterwards: the text read without its blocks, or the file as it was. *)
Definition clean_file (file : str) : bool * str :=
  let text := read_text file in
  if contains TODO_START text && contains TODO_END text
  then (true, strip_spans (length text) text)
  else (false, file).

(** * Properties *)

(** ** Vocabulary of the statements *)

(** *** Occurrences and spans *)

(** [p] occurs in [s]. *)
Definition occurs (p s : str) : Prop := exists a b, s = a ++ p ++ b.

(** The only occurrence of [p] in [g ++ p] is the last one: in a text that
    starts with [g ++ p], the first occurrence of [p] begins right after
    [g]. *)
Definition first_after (p g : str) : Prop :=
  forall a b, g ++ p = a ++ p ++ b -> b = [].

(** The text holds a span: a start marker with an end marker after it. *)
Definition has_span (text : str) : Prop :=
  exists a m b, text = a ++ TODO_START ++ m ++ TODO_END ++ b.

(** A text cut at its spans: each cut is the gap in front of a span and the
    inner text of the span; [tail] is what follows the last span. *)
Fixpoint assemble (cuts : list (str * str)) (tail : str) : str :=
  match cuts with
  | [] => tail
  | (g, m) :: r => g ++ TODO_START ++ m ++ TODO_END ++ assemble r tail
  end.

(** The same text with every span replaced by [block]. *)
Fixpoint replace_spans (block : str) (cuts : list (str * str)) (tail : str) : str :=
  match cuts with
  | [] => tail
  | (g, _) :: r => g ++ block ++ replace_spans block r tail
  end.

(** The cut is the one a scan from the left finds: the start marker does not
    occur earlier in the gap, nor the end marker earlier in the inner text. *)
Definition leftmost_cut (c : str * str) : Prop :=
  first_after TODO_START (fst c) /\ first_after TODO_END (snd c).

(** *** Lines *)

Definition no_backslash (s : str) : Prop := ~ In BACKSLASH s.

Definition no_linebreak (s : str) : Prop := forall c, In c s -> is_linebreak c = false.

Definition blank (s : str) : Prop := forall c, In c s -> is_space c = true.

(** The line starts, or ends, with a character that [strip] keeps. *)
Definition starts_clean (l : str) : Prop := exists c r, l = c :: r /\ is_space c = false.

Definition ends_clean (l : str) : Prop := exists r c, l = r ++ [c] /\ is_space c = false.

(** The lines [strip] leaves alone once they are joined: none at all, or a
    first line that starts clean and a last line that ends clean. *)
Definition trimmed_lines (todos : list str) : Prop :=
  match todos with
  | [] => True
  | l :: _ => starts_clean l /\ ends_clean (last todos [])
  end.

(** What follows a line boundary [c]: the LF of a CR LF pair is skipped. *)
Definition after_break (c : ascii) (s : str) : str :=
  match s with
  | d :: s' => if Ascii.eqb c CR && Ascii.eqb d LF then s' else s
  | [] => []
  end.

(** A task line that starts with a label: [(ds)] and the rest. *)
Definition labelled (ds rest : str) : str := "(" ++ ds ++ ")" ++ rest.

Definition is_number (ds : str) : Prop :=
  ds <> [] /\ forall c, In c ds -> is_digit c = true.


(** *** Sort keys *)

(** The line has no due date that [extract_due] can find. *)
Definition undated (todo : str) : Prop := search_at match_due todo = None.

(** The keys of the two lines are in order. *)
Definition key_le (key : str -> str) (a b : str) : Prop :=
  str_leb (key a) (key b) = true.

(** A text of the form [dddd-dd-dd]. *)
Definition date_shaped (d : str) : Prop :=
  exists y1 y2 y3 y4 m1 m2 d1 d2,
    d = [y1; y2; y3; y4; "-"%char; m1; m2; "-"%char; d1; d2]
    /\ forallb is_digit [y1; y2; y3; y4; m1; m2; d1; d2] = true.

(** A run of word characters that is not empty. *)
Definition is_word_run (w : str) : Prop :=
  w <> [] /\ forall c, In c w -> is_word c = true.

(** The text does not go on with a word character. *)
Definition word_ends (rest : str) : Prop :=
  forall c more, rest = c :: more -> is_word c = false.

(** *** Due dates *)

Definition nonzero_digit (c : ascii) : Prop := in_range 49 57 c = true.

(** [s] writes the number [n] of a month or a day: two digits, with a
    leading zero below ten, or one digit that is not zero. *)
Definition number_text (s : str) (n : Z) : Prop :=
  (exists a b, s = [a; b] /\ is_digit a = true /\ is_digit b = true
               /\ n = (10 * dval a + dval b)%Z /\ (1 <= n)%Z)
  \/ (exists a, s = [a] /\ nonzero_digit a /\ n = dval a).

(** A day may also be written as a blank and one digit. *)
Definition day_text (s : str) (n : Z) : Prop :=
  number_text s n \/ (exists a, s = [" "%char; a] /\ nonzero_digit a /\ n = dval a).

Definition year_text (s : str) (n : Z) : Prop :=
  exists y1 y2 y3 y4,
    s = [y1; y2; y3; y4] /\ forallb is_digit [y1; y2; y3; y4] = true
    /\ n = (1000 * dval y1 + 100 * dval y2 + 10 * dval y3 + dval y4)%Z.

(** The due strings [strptime] takes: year, month and day joined by [-], the
    year of four digits and not zero, and the day one of the month. *)
Definition accepted_due (due : str) : Prop :=
  exists ys ms ds y m d,
    due = ys ++ "-" ++ ms ++ "-" ++ ds
    /\ year_text ys y /\ number_text ms m /\ day_text ds d
    /\ (1 <= y)%Z /\ (m <= 12)%Z /\ (d <= days_in_month y m)%Z.

(** The zero-padded form [YYYY-MM-DD]: four, two and two digits. *)
Definition zero_padded (due : str) : Prop := date_shaped due.

(** *** Example texts *)

Definition empty_block : str := TODO_START ++ [LF] ++ TODO_END.

Definition two_spans : str :=
  TODO_START ++ "a" ++ TODO_END ++ "-" ++ TODO_START ++ "b" ++ TODO_END.

Definition end_before_start : str := TODO_END ++ "-" ++ TODO_START.

(** A file that holds the start marker alone. *)
Definition start_only : str := "x = 1" ++ [LF] ++ TODO_START.

Definition blank_line_block : str :=
  TODO_START ++ [LF] ++ "(1) a" ++ [LF; LF] ++ "(2) b" ++ [LF] ++ TODO_END.

(** A line that holds a backslash followed by the letter n. *)
Definition backslash_n_line : str := "a" ++ [BACKSLASH] ++ "nb".

(** The line [build_task_line] makes of a description that itself holds a
    [Due:] and an [Assigned:]. *)
Definition shadowed_line : str :=
  "(1) [HIGH] see Due: 2020-01-01 notes Assigned: Bob Due: 2024-05-05 Assigned: Ann Lee".

(** *** Vocabulary of the further properties *)

(** What [clean] keeps of a text cut at its spans: the gaps, without the
    line feed that ends a gap in front of a span and without the line feed
    that starts what follows a span. *)
Fixpoint kept_text (first : bool) (cuts : list (str * str)) (tail : str) : str :=
  match cuts with
  | [] => if first then tail else drop_first_lf tail
  | (g, _) :: r =>
      drop_last_lf (if first then g else drop_first_lf g) ++ kept_text false r tail
  end.

(** The lines whose key is [k], in their order. *)
Definition with_key (key : str -> str) (k : str) (todos : list str) : list str :=
  filter (fun x => str_eqb (key x) k) todos.

(** The keys go down along the list. *)
Definition key_ge (key : str -> str) (a b : str) : Prop := key_le key b a.

(** An escape that [re] refuses in a template: a backslash and an ASCII
    letter that is neither [g] nor one of [a b f n r t v]. *)
Definition bad_escape_letter (e : ascii) : Prop :=
  is_ascii_letter e = true /\ template_escape e = None /\ e <> "g"%char.

(** The fields of a task line after its label, as [build_task_line] joins
    them. *)
Definition line_fields (task : str) (priority : option Z) (due assigned : option str)
  : list str :=
  (if truthy_int priority then [format_priority priority] else [])
  ++ [task]
  ++ match due with
     | Some (c :: d) => ["Due: " ++ c :: d]
     | _ => []
     end
  ++ match assigned with
     | Some (c :: a) => ["Assigned: " ++ c :: a]
     | _ => []
     end.

(** The due date is absent, empty, or one that [strptime] takes. *)
Definition due_ok (due : option str) : bool :=
  match due with
  | Some (c :: d) => match strptime (c :: d) with Some _ => true | None => false end
  | _ => true
  end.

(** The first backslash of [s] is followed by [e]. *)
Definition first_escape (e : ascii) (s : str) : Prop :=
  exists x y, s = x ++ BACKSLASH :: e :: y /\ no_backslash x.

(** A file whose block holds two tasks. *)
Definition two_task_block : str :=
  TODO_START ++ [LF] ++ "(1) a" ++ [LF] ++ "(2) b" ++ [LF] ++ TODO_END.

(** Under the sort option [sort] the lines are shown, and the list shown
    has the property [P]. *)
Definition shows (sort : str) (todos : list str) (P : list str -> Prop) : Prop :=
  exists shown, sort_todos (Some sort) todos = Some shown /\ P shown.

(** *** The fields the sort keys are read from *)

(** The text begins with a due field: [Due:], white space or none, and the
    date [d] of the form [dddd-dd-dd]. *)
Definition due_field (s d : str) : Prop :=
  exists ws post, s = "Due:" ++ ws ++ d ++ post /\ blank ws /\ date_shaped d.

(** The text begins with an assignee field: [Assigned:], white space or
    none, and the run [w] of word characters, which ends where the text goes
    on with another character or stops. *)
Definition assigned_field (s w : str) : Prop :=
  exists ws rest,
    s = "Assigned:" ++ ws ++ w ++ rest /\ blank ws /\ is_word_run w /\ word_ends rest.

(** The leftmost place of [todo] where a field begins holds the value [v]:
    no field of any value begins further to the left. *)
Definition first_field (field : str -> str -> Prop) (todo v : str) : Prop :=
  exists pre s,
    todo = pre ++ s /\ field s v
    /\ forall pre' s' v', todo = pre' ++ s' -> length pre' < length pre -> ~ field s' v'.

(** No field begins anywhere in [todo]. *)
Definition no_field (field : str -> str -> Prop) (todo : str) : Prop :=
  forall pre s v, todo = pre ++ s -> ~ field s v.

(** ** Lemmas *)

Section ListSplit.
Context {A : Type}.

Lemma app_eq_app_le (x1 y1 x2 y2 : list A) :
  x1 ++ y1 = x2 ++ y2 -> length x1 <= length x2 ->
  exists l, x2 = x1 ++ l /\ y1 = l ++ y2.
Proof.
  revert x2; induction x1 as [|a x1 IH]; intros x2 E L.
  - exists x2; auto.
  - destruct x2 as [|b x2]; simpl in *; [lia|].
    injection E as -> E.
    destruct (IH x2 E ltac:(lia)) as (l & -> & ->).
    exists l; auto.
Qed.

Lemma app_eq_length (x1 y1 x2 y2 : list A) :
  x1 ++ y1 = x2 ++ y2 -> length x1 = length x2 -> x1 = x2 /\ y1 = y2.
Proof.
  intros E L.
  destruct (app_eq_app_le _ _ _ _ E ltac:(lia)) as (l & -> & ->).
  rewrite length_app in L.
  destruct l; simpl in L; [|lia].
  rewrite app_nil_r; auto.
Qed.

Lemma app_same_length_nil (x y : list A) : x = y ++ x -> y = [].
Proof.
  intros E. apply (f_equal (@length A)) in E.
  rewrite length_app in E. destruct y; simpl in E; [reflexivity|lia].
Qed.
End ListSplit.

Lemma startswith_app (p r : str) : startswith p (p ++ r) = true.
Proof.
  induction p as [|a p IH]; simpl; [reflexivity|].
  now rewrite Ascii.eqb_refl, IH.
Qed.

Lemma startswith_split (p s : str) :
  startswith p s = true -> s = p ++ skipn (length p) s.
Proof.
  revert s; induction p as [|a p IH]; intros s H; simpl in *; [reflexivity|].
  destruct s as [|b s]; [discriminate|].
  apply andb_prop in H as [H1 H2].
  apply Ascii.eqb_eq in H1 as ->.
  simpl. f_equal. now apply IH.
Qed.

Lemma startswith_iff (p s : str) :
  startswith p s = true <-> exists r, s = p ++ r.
Proof.
  split.
  - intros H. eexists. now apply startswith_split.
  - intros [r ->]. apply startswith_app.
Qed.

Lemma partition_unfold (p s : str) :
  partition p s =
  if startswith p s then Some ([], skipn (length p) s)
  else match s with
       | [] => None
       | c :: s' =>
           match partition p s' with
           | Some (a, b) => Some (c :: a, b)
           | None => None
           end
       end.
Proof. destruct s; reflexivity. Qed.

Lemma skipn_length_app (p r : str) : skipn (length p) (p ++ r) = r.
Proof. induction p; simpl; auto. Qed.

Lemma partition_split (p s a b : str) :
  partition p s = Some (a, b) -> s = a ++ p ++ b.
Proof.
  revert a b; induction s as [|c s IH]; intros a b; rewrite partition_unfold;
    destruct (startswith p _) eqn:E.
  - intros [= <- <-]. now apply startswith_split.
  - discriminate.
  - intros [= <- <-]. now apply startswith_split.
  - destruct (partition p s) as [[a' b']|]; [|discriminate].
    intros [= <- <-]. simpl. f_equal. now apply IH.
Qed.

Lemma first_after_nil (p : str) : first_after p [].
Proof.
  intros a b E. simpl in E.
  apply (f_equal (@length ascii)) in E. rewrite !length_app in E.
  destruct b; simpl in E; [reflexivity|lia].
Qed.

Lemma first_after_tail (p g : str) (c : ascii) :
  first_after p (c :: g) -> first_after p g.
Proof.
  intros H a b E. apply (H (c :: a) b). simpl. now rewrite E.
Qed.

Lemma first_after_not_prefix (p g r : str) (c : ascii) :
  first_after p (c :: g) -> startswith p (c :: g ++ p ++ r) = false.
Proof.
  intros H. destruct (startswith p _) eqn:E; [|reflexivity].
  apply startswith_iff in E as [t E].
  assert (L : length p <= length ((c :: g) ++ p)) by (rewrite length_app; lia).
  change (c :: g ++ p ++ r) with ((c :: g) ++ p ++ r) in E.
  rewrite app_assoc in E. symmetry in E.
  destruct (app_eq_app_le _ _ _ _ E L) as (l & E1 & _).
  specialize (H [] l E1). subst l. rewrite app_nil_r in E1.
  apply (f_equal (@length ascii)) in E1. rewrite length_app in E1. simpl in E1. lia.
Qed.

Lemma partition_first (p g r : str) :
  first_after p g -> partition p (g ++ p ++ r) = Some (g, r).
Proof.
  induction g as [|c g IH]; intros H; rewrite partition_unfold.
  - simpl. now rewrite startswith_app, skipn_length_app.
  - change ((c :: g) ++ p ++ r) with (c :: g ++ p ++ r).
    rewrite (first_after_not_prefix _ _ _ _ H).
    now rewrite (IH (first_after_tail _ _ _ H)).
Qed.

Lemma partition_first_after (p s a b : str) :
  partition p s = Some (a, b) -> first_after p a.
Proof.
  revert a b; induction s as [|c s IH]; intros a b; rewrite partition_unfold;
    destruct (startswith p _) eqn:E.
  - intros [= <- <-]. apply first_after_nil.
  - discriminate.
  - intros [= <- <-]. apply first_after_nil.
  - destruct (partition p s) as [[a' b']|] eqn:P; [|discriminate].
    intros [= <- <-]. intros x y F.
    destruct x as [|d x].
    + exfalso. pose proof (partition_split _ _ _ _ P) as ->.
      assert (S : startswith p (c :: a' ++ p ++ b') = true).
      { apply startswith_iff. exists (y ++ b').
        change (c :: a' ++ p ++ b') with ((c :: a') ++ p ++ b').
        rewrite app_assoc, F. simpl. now rewrite <- app_assoc. }
      congruence.
    + injection F as _ F. now apply (IH _ _ eq_refl x y).
Qed.

Lemma partition_Some_iff (p s a b : str) :
  partition p s = Some (a, b) <-> s = a ++ p ++ b /\ first_after p a.
Proof.
  split.
  - intros H; split; eauto using partition_split, partition_first_after.
  - intros [-> H]. now apply partition_first.
Qed.

Lemma partition_None_iff (p s : str) :
  partition p s = None <-> ~ occurs p s.
Proof.
  split.
  - induction s as [|c s IH]; rewrite partition_unfold;
      destruct (startswith p _) eqn:E; try discriminate; intros H (a & b & F).
    + assert (S : startswith p [] = true); [|congruence].
      destruct a; [|discriminate]. destruct p; [reflexivity|discriminate].
    + destruct a as [|d a]; simpl in F.
      * rewrite F, startswith_app in E. discriminate.
      * injection F as _ F. destruct (partition p s) as [[? ?]|]; [discriminate|].
        apply IH; [reflexivity|]. now exists a, b.
  - intros H. destruct (partition p s) as [[a b]|] eqn:P; [|reflexivity].
    exfalso. apply H. exists a, b. eauto using partition_split.
Qed.

Lemma contains_iff (p s : str) : contains p s = true <-> occurs p s.
Proof.
  unfold contains. destruct (partition p s) as [[a b]|] eqn:P.
  - split; [|reflexivity]. intros _. exists a, b. eauto using partition_split.
  - split; [discriminate|]. intros H. now apply partition_None_iff in P.
Qed.

(** The first occurrence is the leftmost one. *)
Lemma first_after_leftmost (p g r a b : str) :
  first_after p g -> g ++ p ++ r = a ++ p ++ b ->
  exists l, a = g ++ l /\ p ++ r = l ++ p ++ b.
Proof.
  intros H E.
  destruct (Nat.le_gt_cases (length g) (length a)) as [L|L].
  - now apply app_eq_app_le.
  - symmetry in E.
    destruct (app_eq_app_le _ _ _ _ E ltac:(lia)) as (l & -> & F).
    assert (Lp : length p <= length (l ++ p)) by (rewrite length_app; lia).
    rewrite app_assoc in F.
    destruct (app_eq_app_le _ _ _ _ F Lp) as (t & F1 & _).
    assert (t = []) as ->.
    { apply (H a t). now rewrite <- app_assoc, F1. }
    rewrite app_nil_r in F1. symmetry in F1.
    apply app_same_length_nil in F1. subst l.
    rewrite length_app in L. simpl in L. lia.
Qed.

(** ** Reading a file *)

Lemma read_text_unfold (file : str) :
  read_text file =
  match file with
  | [] => []
  | c :: r =>
      if Ascii.eqb c CR then
        LF :: match r with
              | d :: r' => if Ascii.eqb d LF then read_text r' else read_text r
              | [] => []
              end
      else c :: read_text r
  end.
Proof. destruct file; reflexivity. Qed.

(** A file without a carriage return is read as it is. *)
Lemma read_text_plain (s : str) : ~ In CR s -> read_text s = s.
Proof.
  induction s as [|c s IH]; [reflexivity|]. intros H.
  rewrite read_text_unfold. destruct (Ascii.eqb c CR) eqn:E.
  - apply Ascii.eqb_eq in E. elim H. now left.
  - f_equal. apply IH. intros F. apply H. now right.
Qed.

(** The text read holds no carriage return. *)
Lemma read_text_no_cr (s : str) : ~ In CR (read_text s).
Proof.
  remember (length s) as n eqn:L.
  revert s L; induction n as [n IH] using lt_wf_ind; intros s ->.
  destruct s as [|c s]; [intros []|]. rewrite read_text_unfold.
  destruct (Ascii.eqb c CR) eqn:E.
  - intros [F|F]; [discriminate F|]. destruct s as [|d s]; [destruct F|].
    destruct (Ascii.eqb d LF).
    + exact (IH (length s) ltac:(simpl; lia) s eq_refl F).
    + exact (IH (length (d :: s)) ltac:(simpl; lia) (d :: s) eq_refl F).
  - intros [F|F].
    + subst c. now rewrite Ascii.eqb_refl in E.
    + exact (IH (length s) ltac:(simpl; lia) s eq_refl F).
Qed.

Lemma read_text_twice (s : str) : read_text (read_text s) = read_text s.
Proof. apply read_text_plain, read_text_no_cr. Qed.

(** Reading starts afresh after a character that is not a carriage
    return. *)
Lemma read_text_app (s t : str) (c : ascii) :
  c <> CR -> read_text (s ++ c :: t) = read_text (s ++ [c]) ++ read_text t.
Proof.
  intros N. assert (E : Ascii.eqb c CR = false) by now apply Ascii.eqb_neq.
  remember (length s) as n eqn:L.
  revert s L; induction n as [n IH] using lt_wf_ind; intros s ->.
  destruct s as [|a s].
  - simpl. now rewrite E.
  - cbn [app]. rewrite (read_text_unfold (a :: s ++ c :: t)).
    rewrite (read_text_unfold (a :: s ++ [c])).
    destruct (Ascii.eqb a CR).
    + destruct s as [|d s]; cbn [app].
      * destruct (Ascii.eqb c LF); [reflexivity|]. simpl. now rewrite E.
      * destruct (Ascii.eqb d LF).
        -- cbn [app]. f_equal.
           exact (IH (length s) ltac:(simpl; lia) s eq_refl).
        -- cbn [app]. f_equal.
           exact (IH (length (d :: s)) ltac:(simpl; lia) (d :: s) eq_refl).
    + cbn [app]. f_equal. exact (IH (length s) ltac:(simpl; lia) s eq_refl).
Qed.

(** A line feed after the file: it is read as a line feed of its own, or
    with the carriage return that ends the file. *)
Lemma read_text_snoc_lf (s : str) :
  exists t, read_text (s ++ [LF]) = t ++ [LF]
            /\ (read_text s = t \/ read_text s = t ++ [LF]).
Proof.
  remember (length s) as n eqn:L.
  revert s L; induction n as [n IH] using lt_wf_ind; intros s ->.
  destruct s as [|a s].
  - exists []. split; [reflexivity|now left].
  - cbn [app]. rewrite (read_text_unfold (a :: s ++ [LF])).
    rewrite (read_text_unfold (a :: s)).
    destruct (Ascii.eqb a CR).
    + destruct s as [|d s]; cbn [app].
      * exists []. split; [reflexivity|now right].
      * destruct (Ascii.eqb d LF).
        -- destruct (IH (length s) ltac:(simpl; lia) s eq_refl) as (t & E & H).
           exists (LF :: t). rewrite E. split; [reflexivity|].
           destruct H as [-> | ->]; auto.
        -- destruct (IH (length (d :: s)) ltac:(simpl; lia) (d :: s) eq_refl)
             as (t & E & H).
           exists (LF :: t). cbn [app] in E. rewrite E. split; [reflexivity|].
           destruct H as [-> | ->]; auto.
    + destruct (IH (length s) ltac:(simpl; lia) s eq_refl) as (t & E & H).
      exists (a :: t). rewrite E. split; [reflexivity|].
      destruct H as [-> | ->]; auto.
Qed.

(** ** The block pattern *)

Lemma search_block_Some_iff (text pre inner post : str) :
  search_block text = Some (pre, inner, post) <->
  text = pre ++ TODO_START ++ inner ++ TODO_END ++ post
  /\ first_after TODO_START pre /\ first_after TODO_END inner.
Proof.
  unfold search_block. split.
  - destruct (partition TODO_START text) as [[a r]|] eqn:P1; [|discriminate].
    destruct (partition TODO_END r) as [[m b]|] eqn:P2; [|discriminate].
    intros [= <- <- <-].
    apply partition_Some_iff in P1 as [-> F1].
    apply partition_Some_iff in P2 as [-> F2]. auto.
  - intros (-> & F1 & F2).
    rewrite (partition_first _ _ _ F1), (partition_first _ _ _ F2). reflexivity.
Qed.

Lemma search_block_None_iff (text : str) :
  search_block text = None <-> ~ has_span text.
Proof.
  unfold search_block. split.
  - destruct (partition TODO_START text) as [[g r]|] eqn:P1.
    + destruct (partition TODO_END r) as [[m b]|] eqn:P2; [discriminate|].
      intros _ (a & m & b & E).
      apply partition_Some_iff in P1 as [-> F1].
      apply partition_None_iff in P2. apply P2.
      destruct (first_after_leftmost _ _ _ _ _ F1 E) as (l & -> & E2).
      assert (L : length TODO_START <= length (l ++ TODO_START))
        by (rewrite length_app; lia).
      rewrite app_assoc in E2.
      destruct (app_eq_app_le _ _ _ _ E2 L) as (t & _ & ->).
      exists (t ++ m), b. now rewrite <- app_assoc.
    + intros _ (a & m & b & E).
      apply partition_None_iff in P1. apply P1.
      exists a, (m ++ TODO_END ++ b). exact E.
  - intros H.
    destruct (partition TODO_START text) as [[g r]|] eqn:P1; [|reflexivity].
    destruct (partition TODO_END r) as [[m b]|] eqn:P2; [|reflexivity].
    exfalso. apply H. exists g, m, b.
    apply partition_split in P1, P2. now subst.
Qed.

Lemma search_block_shorter (text pre inner post : str) :
  search_block text = Some (pre, inner, post) -> length post < length text.
Proof.
  intros H. apply search_block_Some_iff in H as (-> & _ & _).
  rewrite !length_app. simpl. lia.
Qed.

Lemma sub_spans_fuel (tpl : list piece) (n m : nat) (text : str) :
  length text <= n -> length text <= m ->
  sub_spans n tpl text = sub_spans m tpl text.
Proof.
  revert m text; induction n as [|n IH]; intros m text Ln Lm.
  - destruct text; [|simpl in Ln; lia]. destruct m; reflexivity.
  - destruct m as [|m].
    + destruct text; [reflexivity|simpl in Lm; lia].
    + simpl. destruct (search_block text) as [[[pre inner] post]|] eqn:S; [|reflexivity].
      apply search_block_shorter in S.
      do 2 f_equal. apply IH; lia.
Qed.

Lemma sub_spans_unfold (tpl : list piece) (text : str) :
  sub_spans (length text) tpl text =
  match search_block text with
  | None => text
  | Some (pre, inner, post) =>
      pre ++ expand tpl (TODO_START ++ inner ++ TODO_END)
          ++ sub_spans (length post) tpl post
  end.
Proof.
  destruct text as [|c text]; [reflexivity|].
  cbn [length sub_spans].
  destruct (search_block (c :: text)) as [[[pre inner] post]|] eqn:S; [|reflexivity].
  apply search_block_shorter in S. simpl in S.
  do 2 f_equal. apply sub_spans_fuel; lia.
Qed.

(** A template without a backslash stands for itself. *)
Lemma parse_template_literal (t : str) :
  no_backslash t -> parse_template t = Some (map Lit t).
Proof.
  unfold parse_template, no_backslash.
  induction t as [|c t IH]; intros H; [reflexivity|].
  simpl. destruct (Ascii.eqb c BACKSLASH) eqn:E.
  - apply Ascii.eqb_eq in E. exfalso. apply H. now left.
  - simpl. rewrite IH; [reflexivity|]. intros F. apply H. now right.
Qed.

Lemma expand_literal (t m : str) : expand (map Lit t) m = t.
Proof.
  unfold expand. induction t as [|c t IH]; simpl; [reflexivity|]. now rewrite IH.
Qed.

Lemma re_sub_block_literal (repl text : str) :
  no_backslash repl ->
  re_sub_block repl text =
  match search_block text with
  | None => Some text
  | Some (pre, _, post) =>
      option_map (fun r => pre ++ repl ++ r) (re_sub_block repl post)
  end.
Proof.
  intros H. unfold re_sub_block. rewrite (parse_template_literal _ H).
  rewrite sub_spans_unfold.
  destruct (search_block text) as [[[pre inner] post]|]; [|reflexivity].
  simpl. now rewrite expand_literal.
Qed.

Lemma assemble_search (g m : str) (cuts : list (str * str)) (tail : str) :
  leftmost_cut (g, m) ->
  search_block (assemble ((g, m) :: cuts) tail) = Some (g, m, assemble cuts tail).
Proof.
  intros [F1 F2]. apply search_block_Some_iff. auto.
Qed.

Lemma re_sub_block_assemble (repl : str) (cuts : list (str * str)) (tail : str) :
  no_backslash repl -> Forall leftmost_cut cuts -> ~ has_span tail ->
  re_sub_block repl (assemble cuts tail) = Some (replace_spans repl cuts tail).
Proof.
  intros B C T. induction C as [|[g m] cuts C1 C IH].
  - rewrite (re_sub_block_literal _ _ B).
    apply search_block_None_iff in T. simpl. now rewrite T.
  - rewrite (re_sub_block_literal _ _ B), (assemble_search _ _ _ _ C1), IH.
    reflexivity.
Qed.

(** Every text is cut at its spans in exactly the way [leftmost_cut] asks. *)
Lemma text_has_cuts (text : str) :
  exists cuts tail,
    text = assemble cuts tail /\ Forall leftmost_cut cuts /\ ~ has_span tail.
Proof.
  remember (length text) as n eqn:L.
  revert text L; induction n as [n IH] using lt_wf_ind; intros text ->.
  destruct (search_block text) as [[[pre inner] post]|] eqn:S.
  - pose proof (search_block_shorter _ _ _ _ S) as Lt.
    destruct (IH _ Lt post eq_refl) as (cuts & tail & -> & C & T).
    apply search_block_Some_iff in S as (-> & F1 & F2).
    exists ((pre, inner) :: cuts), tail. repeat split; auto.
    constructor; [split; assumption|assumption].
  - exists [], text. repeat split; auto. now apply search_block_None_iff.
Qed.

(** ** The block that [add] writes *)

Lemma not_In_forallb (x : ascii) (s : str) :
  forallb (fun c => negb (Ascii.eqb c x)) s = true -> ~ In x s.
Proof.
  intros H F. rewrite forallb_forall in H. specialize (H x F).
  now rewrite Ascii.eqb_refl in H.
Qed.

Lemma In_join (x : ascii) (sep : str) (l : list str) :
  In x (join sep l) -> In x sep \/ exists s, In s l /\ In x s.
Proof.
  induction l as [|s l IH]; [intros []|].
  destruct l as [|s' l].
  - simpl. intros H. right. exists s. auto.
  - change (join sep (s :: s' :: l)) with (s ++ sep ++ join sep (s' :: l)).
    rewrite !in_app_iff. intros [H|[H|H]].
    + right. exists s. split; [now left|assumption].
    + now left.
    + destruct (IH H) as [?|(t & T1 & T2)]; [now left|].
      right. exists t. split; [now right|assumption].
Qed.

Lemma new_block_no_backslash (todos : list str) :
  Forall no_backslash todos -> no_backslash (new_block todos).
Proof.
  intros H F. unfold new_block in F. rewrite !in_app_iff in F.
  destruct F as [F|[F|[F|[F|F]]]].
  - revert F. apply not_In_forallb. reflexivity.
  - revert F. apply not_In_forallb. reflexivity.
  - apply In_join in F as [F|(s & S1 & S2)].
    + revert F. apply not_In_forallb. reflexivity.
    + rewrite Forall_forall in H. exact (H s S1 S2).
  - revert F. apply not_In_forallb. reflexivity.
  - revert F. apply not_In_forallb. reflexivity.
Qed.

(** Deciding the side conditions on concrete texts. *)
Lemma first_after_by_partition (p g : str) :
  partition p (g ++ p) = Some (g, []) -> first_after p g.
Proof. apply partition_first_after. Qed.

Lemma no_span_by_search (text : str) : search_block text = None -> ~ has_span text.
Proof. apply search_block_None_iff. Qed.

Lemma occurs_by_contains (p s : str) : contains p s = true -> occurs p s.
Proof. apply contains_iff. Qed.

Lemma not_occurs_by_contains (p s : str) : contains p s = false -> ~ occurs p s.
Proof. intros H F. apply contains_iff in F. congruence. Qed.

Lemma assemble_occurs (cuts : list (str * str)) (tail : str) :
  cuts <> [] ->
  occurs TODO_START (assemble cuts tail) /\ occurs TODO_END (assemble cuts tail).
Proof.
  destruct cuts as [|[g m] cuts]; [congruence|]. intros _. simpl. split.
  - now exists g, (m ++ TODO_END ++ assemble cuts tail).
  - exists (g ++ TODO_START ++ m), (assemble cuts tail). now rewrite <- !app_assoc.
Qed.

(** ** [strip], [splitlines] and [join] *)

Lemma lstrip_head (s r : str) (c : ascii) : lstrip s = c :: r -> is_space c = false.
Proof.
  induction s as [|d s IH]; simpl; [discriminate|].
  destruct (is_space d) eqn:E; [assumption|]. now intros [= <- _].
Qed.

Lemma lstrip_snoc (s : str) (c : ascii) :
  is_space c = false -> lstrip (s ++ [c]) = lstrip s ++ [c].
Proof.
  intros H. induction s as [|d s IH]; simpl.
  - now rewrite H.
  - destruct (is_space d); [assumption|reflexivity].
Qed.

Lemma lstrip_blank (s : str) : blank s -> lstrip s = [].
Proof.
  induction s as [|c s IH]; intros H; simpl; [reflexivity|].
  rewrite (H c (or_introl eq_refl)). apply IH. intros d D. apply H. now right.
Qed.

Lemma lstrip_fixed (c : ascii) (s : str) : is_space c = false -> lstrip (c :: s) = c :: s.
Proof. intros H. simpl. now rewrite H. Qed.

Lemma rstrip_cons (c : ascii) (s : str) :
  is_space c = false -> rstrip (c :: s) = c :: rstrip s.
Proof.
  intros H. unfold rstrip. simpl. rewrite (lstrip_snoc _ _ H).
  now rewrite rev_app_distr.
Qed.

Lemma rstrip_snoc (s : str) (c : ascii) :
  is_space c = false -> rstrip (s ++ [c]) = s ++ [c].
Proof.
  intros H. unfold rstrip. rewrite rev_app_distr. simpl. rewrite H.
  simpl. now rewrite rev_involutive.
Qed.

Lemma strip_first (s r : str) (c : ascii) : strip s = c :: r -> is_space c = false.
Proof.
  unfold strip. destruct (lstrip s) as [|d t] eqn:E; [discriminate|].
  pose proof (lstrip_head _ _ _ E) as H.
  rewrite (rstrip_cons _ _ H). now intros [= <- _].
Qed.

Lemma strip_last (s r : str) (c : ascii) : strip s = r ++ [c] -> is_space c = false.
Proof.
  unfold strip, rstrip. intros H.
  apply (f_equal (@rev ascii)) in H.
  rewrite rev_involutive, rev_app_distr in H. simpl in H.
  now apply lstrip_head in H.
Qed.

Lemma strip_blank (s : str) : blank s -> strip s = [].
Proof. intros H. unfold strip. now rewrite (lstrip_blank _ H). Qed.

Lemma linebreak_is_space (c : ascii) : is_linebreak c = true -> is_space c = true.
Proof.
  unfold is_linebreak, is_space, in_range. intros H.
  repeat (apply orb_prop in H as [H|H] || apply andb_prop in H as [? ?]);
    repeat match goal with
           | H : (_ <=? _)%N = true |- _ => apply N.leb_le in H
           | H : (_ =? _)%N = true |- _ => apply N.eqb_eq in H
           end.
  - replace (9 <=? code c)%N with true by (symmetry; apply N.leb_le; lia).
    replace (code c <=? 13)%N with true by (symmetry; apply N.leb_le; lia).
    reflexivity.
  - replace (28 <=? code c)%N with true by (symmetry; apply N.leb_le; lia).
    replace (code c <=? 32)%N with true by (symmetry; apply N.leb_le; lia).
    apply orb_true_iff. left. apply orb_true_iff. left. apply orb_true_r.
  - rewrite H. reflexivity.
Qed.

Lemma splitlines_from_cons (cur : str) (c : ascii) (s : str) :
  splitlines_from cur (c :: s) =
  if is_linebreak c then cur :: splitlines_from [] (after_break c s)
  else splitlines_from (cur ++ [c]) s.
Proof.
  simpl. destruct (is_linebreak c); [|reflexivity].
  destruct s as [|d s]; [reflexivity|].
  simpl. destruct (Ascii.eqb c CR && Ascii.eqb d LF); reflexivity.
Qed.

Lemma after_break_length (c : ascii) (s : str) : length (after_break c s) <= length s.
Proof.
  destruct s as [|d s]; simpl; [lia|].
  destruct (Ascii.eqb c CR && Ascii.eqb d LF); simpl; lia.
Qed.

Lemma after_break_last (c d : ascii) (s : str) :
  is_linebreak d = false ->
  exists s', after_break c (s ++ [d]) = s' ++ [d] /\ length s' <= length s.
Proof.
  intros H. destruct s as [|e s]; simpl.
  - destruct (Ascii.eqb c CR && Ascii.eqb d LF) eqn:E; [|now exists []].
    apply andb_prop in E as [_ E]. apply Ascii.eqb_eq in E. subst d. discriminate.
  - destruct (Ascii.eqb c CR && Ascii.eqb e LF).
    + exists s. split; [reflexivity|lia].
    + exists (e :: s). split; [reflexivity|simpl; lia].
Qed.

(** No line of [splitlines] holds a line boundary. *)
Lemma splitlines_from_no_linebreak (s cur : str) :
  no_linebreak cur -> Forall no_linebreak (splitlines_from cur s).
Proof.
  remember (length s) as n eqn:L.
  revert s cur L; induction n as [n IH] using lt_wf_ind; intros s cur -> C.
  destruct s as [|c s].
  - simpl. destruct cur; constructor; auto.
  - rewrite splitlines_from_cons. destruct (is_linebreak c) eqn:E.
    + constructor; [assumption|].
      apply (IH (length (after_break c s))); auto.
      * pose proof (after_break_length c s). simpl. lia.
      * intros ? [].
    + apply (IH (length s)); auto.
      intros d D. apply in_app_iff in D as [D|[<-|[]]]; auto.
Qed.

(** The first line starts with the line being read. *)
Lemma splitlines_from_first (s cur l : str) (rest : list str) :
  splitlines_from cur s = l :: rest -> exists x, l = cur ++ x.
Proof.
  revert cur; induction s as [|c s IH]; intros cur.
  - simpl. destruct cur; [discriminate|]. intros [= <- _]. exists []. now rewrite app_nil_r.
  - rewrite splitlines_from_cons. destruct (is_linebreak c).
    + intros [= <- _]. exists []. now rewrite app_nil_r.
    + intros H. destruct (IH _ H) as [x ->]. exists (c :: x). now rewrite <- app_assoc.
Qed.

(** The last line is not empty when the text ends off a line boundary. *)
Lemma splitlines_from_last_default (s cur : str) (d : ascii) :
  is_linebreak d = false -> last (splitlines_from cur (s ++ [d])) [] <> [].
Proof.
  intros D. remember (length s) as n eqn:L.
  revert s cur L; induction n as [n IH] using lt_wf_ind; intros s cur ->.
  destruct s as [|c s].
  - simpl. rewrite D. simpl. destruct (cur ++ [d]) eqn:E; [now destruct cur|].
    simpl. discriminate.
  - change ((c :: s) ++ [d]) with (c :: s ++ [d]).
    rewrite splitlines_from_cons. destruct (is_linebreak c) eqn:E.
    + destruct (after_break_last c d s D) as (s' & -> & Ls).
      specialize (IH (length s') ltac:(simpl; lia) s' [] eq_refl).
      destruct (splitlines_from [] (s' ++ [d])); [now elim IH|exact IH].
    + apply (IH (length s) ltac:(simpl; lia) s _ eq_refl).
Qed.

Lemma splitlines_from_last (s cur l : str) (front : list str) (d : ascii) :
  is_linebreak d = false ->
  splitlines_from cur (s ++ [d]) = front ++ [l] -> l <> [].
Proof.
  intros D H. pose proof (splitlines_from_last_default s cur d D) as F.
  now rewrite H, last_last in F.
Qed.

Lemma not_space_not_linebreak (c : ascii) : is_space c = false -> is_linebreak c = false.
Proof.
  intros H. destruct (is_linebreak c) eqn:E; [|reflexivity].
  apply linebreak_is_space in E. congruence.
Qed.

Lemma splitlines_strip_first (s l : str) (rest : list str) :
  splitlines (strip s) = l :: rest -> l <> [].
Proof.
  unfold splitlines. destruct (strip s) as [|c r] eqn:E; [discriminate|].
  pose proof (not_space_not_linebreak _ (strip_first _ _ _ E)) as B.
  rewrite splitlines_from_cons, B. intros H.
  apply splitlines_from_first in H as [x ->]. discriminate.
Qed.

Lemma splitlines_strip_last (s l : str) (front : list str) :
  splitlines (strip s) = front ++ [l] -> l <> [].
Proof.
  unfold splitlines. destruct (strip s) as [|c r] eqn:E.
  - simpl. now destruct front.
  - destruct (exists_last (l := c :: r) ltac:(discriminate)) as (r' & d & R).
    rewrite R in *.
    pose proof (not_space_not_linebreak _ (strip_last _ _ _ E)) as B.
    now apply splitlines_from_last.
Qed.

(** ** Reading a block *)

Lemma parse_todo_block_unfold (text : str) :
  parse_todo_block text =
  match search_block text with
  | None => None
  | Some (_, inner, _) => Some (splitlines (strip inner))
  end.
Proof.
  unfold parse_todo_block.
  destruct (search_block text) as [[[pre inner] post]|]; [|reflexivity].
  now destruct (strip inner).
Qed.

(** ** Reading back a written block *)

Lemma occurs_sep (p x y : str) (c : ascii) :
  ~ In c p -> occurs p (x ++ c :: y) -> occurs p x \/ occurs p y.
Proof.
  intros C. induction x as [|d x IH]; intros (a & b & E).
  - destruct a as [|e a]; simpl in E.
    + destruct p as [|e p]; [left; now exists [], []|].
      injection E as -> _. elim C. now left.
    + injection E as _ ->. right. now exists a, b.
  - destruct a as [|e a].
    + simpl in E. symmetry in E.
      change (p ++ b = (d :: x) ++ c :: y) in E.
      apply app_eq_app in E as [l [[-> E]|[E _]]].
      * destruct l as [|e l].
        -- left. exists [], []. simpl. now rewrite !app_nil_r.
        -- injection E as <- _. elim C. apply in_app_iff. right. now left.
      * left. exists [], l. exact E.
    + injection E as _ E.
      destruct (IH (ex_intro _ a (ex_intro _ b E))) as [(a' & b' & ->)|H].
      * left. now exists (d :: a'), b'.
      * now right.
Qed.

Lemma occurs_join (p : str) (c : ascii) (l : list str) :
  p <> [] -> ~ In c p -> occurs p (join [c] l) -> exists s, In s l /\ occurs p s.
Proof.
  intros N C. induction l as [|s l IH].
  - intros (a & b & E). destruct a, p; try discriminate. congruence.
  - destruct l as [|s' l].
    + intros H. exists s. split; [now left|exact H].
    + change (join [c] (s :: s' :: l)) with (s ++ c :: join [c] (s' :: l)).
      intros H. apply occurs_sep in H as [H|H]; auto.
      * exists s. split; [now left|exact H].
      * destruct (IH H) as (t & T1 & T2). exists t. split; [now right|exact T2].
Qed.

Lemma occurs_shorter (p s : str) : occurs p s -> length p <= length s.
Proof. intros (a & b & ->). rewrite !length_app. lia. Qed.

Lemma first_after_sep (p g : str) (c : ascii) :
  ~ In c p -> ~ occurs p g -> first_after p (g ++ [c]).
Proof.
  intros C O a b E.
  destruct (exists_last (l := p)) as (p' & e & ->).
  { intros ->. apply O. now exists [], g. }
  destruct b as [|x b] using rev_ind; [reflexivity|]. clear IHb. exfalso.
  rewrite !app_assoc in E. apply app_inj_tail in E as [E _].
  rewrite <- !app_assoc in E.
  assert (H : occurs (p' ++ [e]) (g ++ c :: p')).
  { exists a, b. simpl in E. rewrite E. now rewrite <- app_assoc. }
  apply occurs_sep in H as [H|H]; auto.
  apply occurs_shorter in H. rewrite length_app in H. simpl in H. lia.
Qed.

Lemma splitlines_from_line (x cur s : str) :
  no_linebreak x -> splitlines_from cur (x ++ s) = splitlines_from (cur ++ x) s.
Proof.
  revert cur; induction x as [|c x IH]; intros cur H.
  - now rewrite app_nil_r.
  - change ((c :: x) ++ s) with (c :: x ++ s).
    rewrite splitlines_from_cons, (H c (or_introl eq_refl)).
    rewrite IH by (intros d D; apply H; now right).
    now rewrite <- app_assoc.
Qed.

Lemma splitlines_join (todos : list str) :
  Forall no_linebreak todos -> (todos <> [] -> last todos [] <> []) ->
  splitlines (join [LF] todos) = todos.
Proof.
  unfold splitlines. induction 1 as [|x l X L IH]; intros N; [reflexivity|].
  destruct l as [|y l].
  - simpl. rewrite <- (app_nil_r x) at 1. rewrite (splitlines_from_line _ _ _ X).
    simpl. specialize (N ltac:(discriminate)). simpl in N. now destruct x.
  - change (join [LF] (x :: y :: l)) with (x ++ LF :: join [LF] (y :: l)).
    rewrite (splitlines_from_line _ _ _ X), splitlines_from_cons.
    change (is_linebreak LF) with true. cbv iota.
    replace (after_break LF (join [LF] (y :: l))) with (join [LF] (y :: l))
      by (now destruct (join [LF] (y :: l))).
    simpl app. f_equal. apply IH. intros _. apply N. discriminate.
Qed.

Lemma join_starts_clean (sep : str) (l : str) (todos : list str) :
  starts_clean l -> starts_clean (join sep (l :: todos)).
Proof.
  intros (c & r & -> & H). destruct todos; simpl.
  - now exists c, r.
  - now exists c, (r ++ sep ++ join sep (s :: todos)).
Qed.

Lemma join_ends_clean (sep : str) (todos : list str) :
  todos <> [] -> ends_clean (last todos []) -> ends_clean (join sep todos).
Proof.
  induction todos as [|l todos IH]; [congruence|]. intros _ H.
  destruct todos as [|l' todos]; [exact H|].
  change (join sep (l :: l' :: todos)) with (l ++ sep ++ join sep (l' :: todos)).
  destruct (IH ltac:(discriminate) H) as (r & c & -> & C).
  exists (l ++ sep ++ r), c. now rewrite <- !app_assoc.
Qed.

Lemma lstrip_skip (c : ascii) (s : str) : is_space c = true -> lstrip (c :: s) = lstrip s.
Proof. intros H. simpl. now rewrite H. Qed.

Lemma strip_framed (j : str) :
  starts_clean j -> ends_clean j -> strip (LF :: j ++ [LF]) = j.
Proof.
  intros (c & r & -> & C) (r' & d & E & D).
  unfold strip. rewrite (lstrip_skip LF) by reflexivity.
  change ((c :: r) ++ [LF]) with (c :: r ++ [LF]).
  rewrite (lstrip_fixed _ _ C).
  change (c :: r ++ [LF]) with ((c :: r) ++ [LF]). rewrite E.
  unfold rstrip. rewrite !rev_app_distr.
  change (rev [LF] ++ rev [d] ++ rev r') with (LF :: d :: rev r').
  rewrite (lstrip_skip LF) by reflexivity. rewrite (lstrip_fixed _ _ D).
  simpl. now rewrite rev_involutive.
Qed.

Lemma trimmed_last_not_empty (todos : list str) :
  trimmed_lines todos -> todos <> [] -> last todos [] <> [].
Proof.
  destruct todos as [|l todos]; [congruence|].
  intros [_ (r & c & -> & _)] _. now destruct r.
Qed.

Lemma strip_new_block_inner (todos : list str) :
  trimmed_lines todos -> strip ([LF] ++ join [LF] todos ++ [LF]) = join [LF] todos.
Proof.
  destruct todos as [|l todos]; [reflexivity|]. intros [S E].
  apply strip_framed.
  - now apply join_starts_clean.
  - now apply join_ends_clean.
Qed.

Lemma end_marker_first_after_lines (todos : list str) :
  Forall (fun l => ~ occurs TODO_END l) todos ->
  first_after TODO_END ([LF] ++ join [LF] todos ++ [LF]).
Proof.
  intros H.
  assert (C : ~ In LF TODO_END) by (apply not_In_forallb; reflexivity).
  change ([LF] ++ join [LF] todos ++ [LF]) with (([] ++ LF :: join [LF] todos) ++ [LF]).
  apply first_after_sep; [exact C|].
  intros F. apply occurs_sep in F as [F|F]; [| |exact C].
  - apply occurs_shorter in F. simpl in F. lia.
  - apply occurs_join in F as (s & S1 & S2); [|discriminate|exact C].
    rewrite Forall_forall in H. exact (H s S1 S2).
Qed.

Lemma parse_written (pre post : str) (todos : list str) :
  first_after TODO_START pre ->
  Forall no_linebreak todos ->
  Forall (fun l => ~ occurs TODO_END l) todos ->
  trimmed_lines todos ->
  parse_todo_block (pre ++ new_block todos ++ post) = Some todos.
Proof.
  intros F B E T. rewrite parse_todo_block_unfold.
  assert (S : search_block (pre ++ new_block todos ++ post)
              = Some (pre, [LF] ++ join [LF] todos ++ [LF], post)).
  { apply search_block_Some_iff. repeat split.
    - unfold new_block. now rewrite <- !app_assoc.
    - exact F.
    - now apply end_marker_first_after_lines. }
  rewrite S, (strip_new_block_inner _ T).
  now rewrite (splitlines_join _ B (trimmed_last_not_empty _ T)).
Qed.

(** ** Due dates that fail *)

Lemma build_task_line_fails (index : Z) (task due : str) (priority : option Z)
    (assigned : option str) :
  build_task_line index task priority (Some due) assigned = None
  <-> due <> [] /\ strptime due = None.
Proof.
  unfold build_task_line. destruct due as [|c d].
  - split; [|now intros [N _]].
    destruct assigned as [[|? ?]|]; discriminate.
  - destruct (strptime (c :: d)).
    + split; [|now intros [_ N]].
      destruct assigned as [[|? ?]|]; discriminate.
    + split; [|reflexivity]. intros _. split; [discriminate|reflexivity].
Qed.

(** ** Labels *)

Lemma take_while_stop (f : ascii -> bool) (ds r : str) (c : ascii) :
  (forall d, In d ds -> f d = true) -> f c = false ->
  take_while f (ds ++ c :: r) = ds /\ drop_while f (ds ++ c :: r) = c :: r.
Proof.
  intros D C. induction ds as [|d ds IH]; simpl.
  - now rewrite C.
  - rewrite (D d (or_introl eq_refl)).
    destruct IH as [-> ->]; [intros e E; apply D; now right|]. auto.
Qed.

Lemma match_label_labelled (ds rest : str) :
  is_number ds -> match_label (labelled ds rest) = Some rest.
Proof.
  intros [N D]. unfold match_label, labelled.
  change ("(" ++ ds ++ ")" ++ rest) with ("("%char :: ds ++ ")"%char :: rest).
  destruct (take_while_stop is_digit ds rest ")"%char D eq_refl) as [-> ->].
  destruct ds; [congruence|reflexivity].
Qed.

Lemma renumber_labelled (i : nat) (ds rest : str) :
  is_number ds ->
  renumber i (labelled ds rest) = labelled (str_of_Z (Z.of_nat i + 1)) rest.
Proof. intros H. unfold renumber. now rewrite (match_label_labelled _ _ H). Qed.




Lemma pop_length {A : Type} (id : nat) (l : list A) :
  id < length l -> length (pop id l) = length l - 1.
Proof.
  intros H. unfold pop. rewrite length_app, length_firstn, length_skipn. lia.
Qed.

Lemma enumerate_from_length {A : Type} (k : nat) (l : list A) :
  length (enumerate_from k l) = length l.
Proof. revert k; induction l; intros k; simpl; auto. Qed.


(** ** The order of strings and [sorted] *)

Lemma str_compare_antisym (a b : str) :
  str_compare b a = CompOpp (str_compare a b).
Proof.
  revert b; induction a as [|x a IH]; intros [|y b]; simpl; auto.
  rewrite (N.compare_antisym (code x) (code y)).
  destruct (code x ?= code y)%N; simpl; auto.
Qed.

Lemma str_leb_total (a b : str) : str_leb a b = false -> str_leb b a = true.
Proof.
  unfold str_leb. rewrite (str_compare_antisym a b).
  destruct (str_compare a b); simpl; congruence.
Qed.

Lemma str_leb_trans (a b c : str) :
  str_leb a b = true -> str_leb b c = true -> str_leb a c = true.
Proof.
  unfold str_leb. revert b c; induction a as [|x a IH]; intros [|y b] [|z c]; simpl; auto;
    try discriminate.
  destruct (N.compare_spec (code x) (code y)) as [E1|L1|G1]; try discriminate;
    destruct (N.compare_spec (code y) (code z)) as [E2|L2|G2]; try discriminate; intros H1 H2.
  - rewrite E1, E2, N.compare_refl. now apply (IH b c).
  - rewrite E1. now apply N.compare_lt_iff in L2 as ->.
  - rewrite <- E2. now apply N.compare_lt_iff in L1 as ->.
  - assert (L : (code x < code z)%N) by lia. now apply N.compare_lt_iff in L as ->.
Qed.

Lemma str_ltb_leb (a b : str) : str_leb b a = true -> str_ltb a b = false.
Proof.
  unfold str_leb, str_ltb. rewrite (str_compare_antisym a b).
  destruct (str_compare a b); simpl; congruence.
Qed.

(** Facts about [sorted] that hold for every key. *)
Section Sorting.
Variable key : str -> str.

Lemma insert_by_perm (x : str) (l : list str) :
  Permutation (x :: l) (insert_by key x l).
Proof.
  induction l as [|y l IH]; simpl; [reflexivity|].
  destruct (str_leb (key x) (key y)); [reflexivity|].
  rewrite perm_swap. now constructor.
Qed.

Lemma sorted_perm (l : list str) : Permutation l (sorted key l).
Proof.
  induction l as [|x l IH]; simpl; [constructor|].
  rewrite <- insert_by_perm. now constructor.
Qed.

Lemma insert_by_sorted (x : str) (l : list str) :
  StronglySorted (key_le key) l -> StronglySorted (key_le key) (insert_by key x l).
Proof.
  induction 1 as [|y l S IH F]; simpl.
  - repeat constructor.
  - destruct (str_leb (key x) (key y)) eqn:E.
    + constructor; [now constructor|]. constructor; [exact E|].
      eapply Forall_impl; [|exact F]. intros z Z. exact (str_leb_trans _ _ _ E Z).
    + constructor; [exact IH|].
      rewrite <- insert_by_perm. constructor; [|exact F].
      now apply str_leb_total.
Qed.

Lemma sorted_sorted (l : list str) :
  StronglySorted (key_le key) (sorted key l).
Proof.
  induction l as [|x l IH]; simpl; [constructor|]. now apply insert_by_sorted.
Qed.

Lemma strongly_sorted_after {A : Type} (R : A -> A -> Prop) (front back : list A) (x : A) :
  StronglySorted R (front ++ x :: back) -> Forall (R x) back.
Proof.
  induction front as [|a front IH]; simpl; intros H; inversion H; subst; auto.
Qed.

(** In the result of [sorted], what follows a line has a key that is not
    smaller; in the result of [sorted_reverse], what comes before it. *)
Lemma sorted_after (l front back : list str) (x y : str) :
  sorted key l = front ++ x :: back -> In y back -> key_le key x y.
Proof.
  intros E I. pose proof (sorted_sorted l) as S. rewrite E in S.
  apply strongly_sorted_after in S. rewrite Forall_forall in S. auto.
Qed.

Lemma sorted_reverse_before (l front back : list str) (x y : str) :
  sorted_reverse key l = front ++ x :: back -> In y front -> key_le key x y.
Proof.
  unfold sorted_reverse. intros E I.
  apply (f_equal (@rev str)) in E. rewrite rev_involutive, rev_app_distr in E.
  simpl in E. rewrite <- app_assoc in E. simpl in E.
  apply (sorted_after (rev l) (rev back) (rev front) x y E).
  now apply in_rev in I.
Qed.

End Sorting.

(** ** Searching a line for its sort keys *)

Lemma search_at_unfold {A : Type} (m : str -> option A) (s : str) :
  search_at m s =
  match m s with
  | Some r => Some r
  | None => match s with [] => None | _ :: s' => search_at m s' end
  end.
Proof. destruct s; reflexivity. Qed.

(** A pattern that starts with the literal [p] is not found before the
    first occurrence of [p]. *)
Lemma search_at_skip {A : Type} (m : str -> option A) (p g r : str) :
  (forall s, startswith p s = false -> m s = None) ->
  first_after p g ->
  search_at m (g ++ p ++ r) = search_at m (p ++ r).
Proof.
  intros M. induction g as [|c g IH]; intros F; [reflexivity|].
  rewrite search_at_unfold.
  change ((c :: g) ++ p ++ r) with (c :: g ++ p ++ r).
  rewrite (M _ (first_after_not_prefix _ _ _ _ F)).
  apply IH. eapply first_after_tail, F.
Qed.

Lemma word_not_space (c : ascii) : is_word c = true -> is_space c = false.
Proof.
  destruct c as [[] [] [] [] [] [] [] []]; vm_compute; intros H;
    first [reflexivity|discriminate H].
Qed.

Lemma digit_not_space (c : ascii) : is_digit c = true -> is_space c = false.
Proof.
  destruct c as [[] [] [] [] [] [] [] []]; vm_compute; intros H;
    first [reflexivity|discriminate H].
Qed.

Lemma spaces_then_here {A : Type} (k : str -> option A) (c : ascii) (s : str) :
  is_space c = false -> spaces_then k (c :: s) = k (c :: s).
Proof. intros H. simpl. now rewrite H. Qed.

Lemma spaces_then_skip {A : Type} (k : str -> option A) (c : ascii) (s : str) :
  is_space c = true ->
  spaces_then k (c :: s) =
  match spaces_then k s with
  | Some r => Some r
  | None => k (c :: s)
  end.
Proof. intros H. simpl. now rewrite H. Qed.

Lemma match_due_needs_literal (s : str) : startswith "Due:" s = false -> match_due s = None.
Proof. intros H. unfold match_due. now rewrite H. Qed.

Lemma match_assigned_needs_literal (s : str) :
  startswith "Assigned:" s = false -> match_assigned s = None.
Proof. intros H. unfold match_assigned. now rewrite H. Qed.

Lemma match_due_date (date post : str) :
  date_shaped date -> match_due ("Due: " ++ date ++ post) = Some date.
Proof.
  intros (y1 & y2 & y3 & y4 & m1 & m2 & d1 & d2 & -> & D).
  assert (Y : is_digit y1 = true) by (simpl in D; now destruct (is_digit y1)).
  change (match_due ("Due: " ++ _ ++ post))
    with (spaces_then date_here (" "%char :: y1 :: [y2; y3; y4; "-"%char; m1; m2; "-"%char; d1; d2] ++ post)).
  rewrite (spaces_then_skip _ " "%char) by reflexivity.
  rewrite (spaces_then_here _ _ _ (digit_not_space _ Y)).
  unfold date_here. cbn [app]. now rewrite D.
Qed.

Lemma take_while_all (f : ascii -> bool) (w rest : str) :
  (forall c, In c w -> f c = true) ->
  (forall c more, rest = c :: more -> f c = false) ->
  take_while f (w ++ rest) = w.
Proof.
  intros W R. destruct rest as [|c more].
  - rewrite app_nil_r. induction w as [|d w IH]; simpl; [reflexivity|].
    rewrite (W d (or_introl eq_refl)), IH; [reflexivity|].
    intros e E. apply W. now right.
  - now apply take_while_stop; [|apply (R c more)].
Qed.

Lemma match_assigned_word (w rest : str) :
  is_word_run w -> word_ends rest ->
  match_assigned ("Assigned: " ++ w ++ rest) = Some w.
Proof.
  intros [N W] R. destruct w as [|c w]; [congruence|].
  change (match_assigned ("Assigned: " ++ _ ++ rest))
    with (spaces_then word_here (" "%char :: c :: w ++ rest)).
  rewrite (spaces_then_skip _ " "%char) by reflexivity.
  rewrite (spaces_then_here _ _ _ (word_not_space _ (W c (or_introl eq_refl)))).
  unfold word_here.
  change (c :: w ++ rest) with ((c :: w) ++ rest).
  now rewrite (take_while_all _ _ _ W R).
Qed.

(** ** The fields of the sort keys *)

Lemma spaces_then_unfold {A : Type} (k : str -> option A) (s : str) :
  spaces_then k s =
  match s with
  | c :: s' =>
      if is_space c then
        match spaces_then k s' with
        | Some r => Some r
        | None => k s
        end
      else k s
  | [] => k s
  end.
Proof. destruct s; reflexivity. Qed.

(** [\s*] in front of a pattern that cannot begin with white space: the
    white space is skipped, all of it. *)
Lemma spaces_then_iff {A : Type} (k : str -> option A) (P : str -> A -> Prop) :
  (forall s v, k s = Some v <-> P s v) ->
  (forall c r v, P (c :: r) v -> is_space c = false) ->
  forall s v,
    spaces_then k s = Some v <-> exists ws r, s = ws ++ r /\ blank ws /\ P r v.
Proof.
  intros K N s v. split.
  - revert v. induction s as [|c s IH]; intros v H.
    + exists [], []. repeat split; [intros x []|now apply K].
    + rewrite spaces_then_unfold in H. destruct (is_space c) eqn:Sp.
      * destruct (spaces_then k s) as [r|] eqn:R.
        -- injection H as <-. destruct (IH _ eq_refl) as (ws & r' & -> & B & Pr).
           exists (c :: ws), r'. repeat split; auto. intros x [<-|I]; auto.
        -- exists [], (c :: s). repeat split; [intros x []|now apply K].
      * exists [], (c :: s). repeat split; [intros x []|now apply K].
  - intros (ws & r & -> & B & Pr). induction ws as [|c ws IH].
    + cbn [app]. destruct r as [|c r]; [now apply K|].
      rewrite (spaces_then_here _ _ _ (N _ _ _ Pr)). now apply K.
    + cbn [app]. rewrite spaces_then_skip by (apply B; now left).
      rewrite IH; [reflexivity|]. intros x I. apply B. now right.
Qed.

Lemma date_here_iff (s d : str) :
  date_here s = Some d <-> exists post, s = d ++ post /\ date_shaped d.
Proof.
  split.
  - unfold date_here.
    destruct s as [|y1 [|y2 [|y3 [|y4 [|h1 [|m1 [|m2 [|h2 [|d1 [|d2 post]]]]]]]]]];
      try discriminate.
    match goal with |- context [if ?c then _ else _] => destruct c eqn:E end;
      [|discriminate].
    apply andb_prop in E as [E H2]. apply andb_prop in E as [E H1].
    apply Ascii.eqb_eq in H1, H2. subst h1 h2.
    cbn [firstn]. intros [= <-]. exists post. split; [reflexivity|].
    now exists y1, y2, y3, y4, m1, m2, d1, d2.
  - intros (post & -> & y1 & y2 & y3 & y4 & m1 & m2 & d1 & d2 & -> & D).
    unfold date_here. cbn [app]. now rewrite D.
Qed.

Lemma take_drop_while (f : ascii -> bool) (s : str) :
  s = take_while f s ++ drop_while f s.
Proof.
  induction s as [|c s IH]; [reflexivity|]. simpl.
  destruct (f c); [|reflexivity]. simpl. now f_equal.
Qed.

Lemma take_while_true (f : ascii -> bool) (s : str) (c : ascii) :
  In c (take_while f s) -> f c = true.
Proof.
  induction s as [|d s IH]; [intros []|]. simpl.
  destruct (f d) eqn:E; [|intros []]. intros [<-|H]; auto.
Qed.

Lemma drop_while_head (f : ascii -> bool) (s r : str) (c : ascii) :
  drop_while f s = c :: r -> f c = false.
Proof.
  induction s as [|d s IH]; [discriminate|]. simpl.
  destruct (f d) eqn:E; [exact IH|]. now intros [= <- _].
Qed.

Lemma word_here_iff (s w : str) :
  word_here s = Some w <-> exists rest, s = w ++ rest /\ is_word_run w /\ word_ends rest.
Proof.
  split.
  - unfold word_here. destruct (take_while is_word s) as [|c t] eqn:T; [discriminate|].
    intros [= <-]. exists (drop_while is_word s).
    split; [rewrite <- T; apply take_drop_while|]. split.
    + split; [discriminate|]. intros x I. rewrite <- T in I.
      exact (take_while_true _ _ _ I).
    + intros x more E. exact (drop_while_head _ _ _ _ E).
  - intros (rest & -> & [N W] & R). unfold word_here.
    rewrite (take_while_all _ _ _ W R). now destruct w.
Qed.

(** [match_due] and [match_assigned] succeed exactly at the fields. *)
Lemma match_due_iff (s d : str) : match_due s = Some d <-> due_field s d.
Proof.
  unfold match_due, due_field. split.
  - destruct (startswith "Due:" s) eqn:St; [|discriminate].
    apply startswith_iff in St as [r ->].
    change (skipn 4 ("Due:" ++ r)) with r. intros H.
    apply (spaces_then_iff date_here
             (fun s d => exists post, s = d ++ post /\ date_shaped d)) in H.
    + destruct H as (ws & r' & -> & B & post & -> & D). now exists ws, post.
    + exact date_here_iff.
    + intros c r' v (post & E & y1 & y2 & y3 & y4 & m1 & m2 & d1 & d2 & -> & D).
      injection E as -> _. apply digit_not_space.
      cbn [forallb] in D. now destruct (is_digit y1).
  - intros (ws & post & -> & B & D). rewrite startswith_app.
    change (skipn 4 ("Due:" ++ ws ++ d ++ post)) with (ws ++ d ++ post).
    apply (spaces_then_iff date_here
             (fun s d => exists post, s = d ++ post /\ date_shaped d)).
    + exact date_here_iff.
    + intros c r' v (post' & E & y1 & y2 & y3 & y4 & m1 & m2 & d1 & d2 & -> & D').
      injection E as -> _. apply digit_not_space.
      cbn [forallb] in D'. now destruct (is_digit y1).
    + exists ws, (d ++ post). repeat split; auto. now exists post.
Qed.

Lemma match_assigned_iff (s w : str) : match_assigned s = Some w <-> assigned_field s w.
Proof.
  unfold match_assigned, assigned_field. split.
  - destruct (startswith "Assigned:" s) eqn:St; [|discriminate].
    apply startswith_iff in St as [r ->].
    change (skipn 9 ("Assigned:" ++ r)) with r. intros H.
    apply (spaces_then_iff word_here
             (fun s w => exists rest, s = w ++ rest /\ is_word_run w /\ word_ends rest))
      in H.
    + destruct H as (ws & r' & -> & B & rest & -> & W & R). now exists ws, rest.
    + exact word_here_iff.
    + intros c r' v (rest & E & [N W] & _). destruct v as [|x v]; [congruence|].
      injection E as -> _. apply word_not_space, W. now left.
  - intros (ws & rest & -> & B & W & R). rewrite startswith_app.
    change (skipn 9 ("Assigned:" ++ ws ++ w ++ rest)) with (ws ++ w ++ rest).
    apply (spaces_then_iff word_here
             (fun s w => exists rest, s = w ++ rest /\ is_word_run w /\ word_ends rest)).
    + exact word_here_iff.
    + intros c r' v (rest' & E & [N' W'] & _). destruct v as [|x v]; [congruence|].
      injection E as -> _. apply word_not_space, W'. now left.
    + exists ws, (w ++ rest). repeat split; auto; try apply W. now exists rest.
Qed.

(** [re.search]: the match is the one at the leftmost place where the
    pattern matches. *)
Lemma search_at_first (m : str -> option str) (field : str -> str -> Prop) :
  (forall s v, m s = Some v <-> field s v) ->
  forall todo v, search_at m todo = Some v <-> first_field field todo v.
Proof.
  intros M todo v. split.
  - revert v. induction todo as [|c t IH]; intros v; rewrite search_at_unfold;
      destruct (m _) as [r|] eqn:E; try discriminate.
    + intros [= <-]. exists [], []. repeat split; [now apply M|].
      intros pre' s' v' _ L. simpl in L. lia.
    + intros [= <-]. exists [], (c :: t). repeat split; [now apply M|].
      intros pre' s' v' _ L. simpl in L. lia.
    + intros H. destruct (IH _ H) as (pre & s & -> & F & Min).
      exists (c :: pre), s. repeat split; [exact F|].
      intros pre' s' v' E' L F'. destruct pre' as [|c' pre'].
      * simpl in E'. subst s'. apply M in F'. congruence.
      * simpl in E'. injection E' as <- E'.
        apply (Min pre' s' v' E'); [simpl in L; lia|exact F'].
  - intros (pre & s & -> & F & Min). induction pre as [|c pre IH].
    + cbn [app]. rewrite search_at_unfold. apply M in F. now rewrite F.
    + cbn [app]. rewrite search_at_unfold. destruct (m (c :: pre ++ s)) as [r|] eqn:E.
      * exfalso. apply M in E.
        apply (Min [] (c :: pre ++ s) r eq_refl); [simpl; lia|exact E].
      * apply IH. intros pre' s' v' E' L F'.
        apply (Min (c :: pre') s' v'); [simpl; now rewrite E'|simpl; lia|exact F'].
Qed.

Lemma search_at_nowhere (m : str -> option str) (field : str -> str -> Prop) :
  (forall s v, m s = Some v <-> field s v) ->
  forall todo, search_at m todo = None <-> no_field field todo.
Proof.
  intros M todo. split.
  - intros H pre s v -> F. induction pre as [|c pre IH].
    + cbn [app] in H. rewrite search_at_unfold in H. apply M in F.
      rewrite F in H. discriminate.
    + cbn [app] in H. rewrite search_at_unfold in H.
      destruct (m (c :: pre ++ s)); [discriminate|]. exact (IH H).
  - induction todo as [|c t IH]; intros H; rewrite search_at_unfold;
      destruct (m _) as [r|] eqn:E; try reflexivity.
    + apply M in E. now elim (H [] [] r eq_refl).
    + apply M in E. now elim (H [] (c :: t) r eq_refl).
    + apply IH. intros pre s v -> F. exact (H (c :: pre) s v eq_refl F).
Qed.

(** ** The dates [strptime] takes *)

Lemma eqb_code (a b : ascii) : Ascii.eqb a b = (code a =? code b)%N.
Proof.
  destruct (Ascii.eqb_spec a b) as [->|N].
  - now rewrite N.eqb_refl.
  - symmetry. apply N.eqb_neq. intros H. apply N. unfold code in H.
    now rewrite <- (ascii_N_embedding a), <- (ascii_N_embedding b), H.
Qed.

(** Tests on characters as arithmetic on their codes. *)
Ltac code_tests :=
  unfold nonzero_digit, is_digit, in_range, dval, digit_value in *;
  rewrite ?eqb_code in *;
  repeat match goal with
         | H : _ && _ = true |- _ => apply andb_prop in H as [? ?]
         | H : (_ <=? _)%N = true |- _ => apply N.leb_le in H
         | H : (_ =? _)%N = true |- _ => apply N.eqb_eq in H
         end.

Ltac split_tests :=
  repeat match goal with
         | |- context [(?x =? ?y)%N] => destruct (N.eqb_spec x y)
         | |- context [(?x <=? ?y)%N] => destruct (N.leb_spec x y)
         end.

Lemma orelse_inv {A : Type} (x y : option A) (v : A) :
  orelse x y = Some v -> x = Some v \/ (x = None /\ y = Some v).
Proof. destruct x; simpl; auto. Qed.

Lemma two_chars_inv (fa fb : ascii -> bool) (s g r : str) :
  two_chars fa fb s = Some (g, r) ->
  exists a b, s = a :: b :: r /\ g = [a; b] /\ fa a = true /\ fb b = true.
Proof.
  destruct s as [|a [|b s]]; simpl; try discriminate.
  destruct (fa a) eqn:Fa; [|discriminate]. destruct (fb b) eqn:Fb; [|discriminate].
  intros [= <- <-]. now exists a, b.
Qed.

Lemma one_char_inv (fa : ascii -> bool) (s g r : str) :
  one_char fa s = Some (g, r) -> exists a, s = a :: r /\ g = [a] /\ fa a = true.
Proof.
  destruct s as [|a s]; simpl; try discriminate.
  destruct (fa a) eqn:Fa; [|discriminate]. intros [= <- <-]. now exists a.
Qed.

Lemma then_dash_inv (x : option (str * str)) (g r : str) :
  then_dash x = Some (g, r) -> x = Some (g, "-"%char :: r).
Proof.
  destruct x as [[g' [|h r']]|]; simpl; try discriminate.
  destruct (Ascii.eqb_spec h "-"); [|discriminate]. now intros [= <- <-]; subst.
Qed.

Lemma int_of_digits_two (a b : ascii) :
  is_space a = false -> int_of_digits [a; b] = (10 * dval a + dval b)%Z.
Proof.
  intros H. unfold int_of_digits. rewrite (lstrip_fixed _ _ H).
  cbn [fold_left]. clear H. lia.
Qed.

Lemma int_of_digits_one (a : ascii) : is_space a = false -> int_of_digits [a] = dval a.
Proof.
  intros H. unfold int_of_digits. rewrite (lstrip_fixed _ _ H).
  cbn [fold_left]. clear H. lia.
Qed.

Lemma int_of_digits_blank (a : ascii) :
  is_space a = false -> int_of_digits [" "%char; a] = dval a.
Proof.
  intros H. unfold int_of_digits. rewrite (lstrip_skip " "%char) by reflexivity.
  rewrite (lstrip_fixed _ _ H). cbn [fold_left]. clear H. lia.
Qed.

Lemma range_digit (lo hi : N) (c : ascii) :
  in_range lo hi c = true -> (48 <=? lo)%N = true -> (hi <=? 57)%N = true ->
  is_digit c = true.
Proof.
  intros R L H. code_tests. apply andb_true_intro. split; apply N.leb_le; lia.
Qed.

Lemma range_dval (lo hi : N) (c : ascii) :
  in_range lo hi c = true -> (48 <=? lo)%N = true ->
  (Z.of_N lo <= dval c + 48 <= Z.of_N hi)%Z.
Proof. intros R L. code_tests. lia. Qed.

(** Linear arithmetic on digit values, the tests on characters set aside. *)
Ltac digits_lia :=
  repeat match goal with H : @eq bool _ _ |- _ => clear H end;
  change (dval "0") with 0%Z; change (dval "1") with 1%Z; change (dval "3") with 3%Z;
  lia.

Ltac digit_facts F :=
  let D := fresh "D" in
  let V := fresh "V" in
  pose proof (range_digit _ _ _ F eq_refl eq_refl) as D;
  pose proof (range_dval _ _ _ F eq_refl) as V.

Lemma month_dash_inv (s ms r : str) :
  month_dash s = Some (ms, r) ->
  s = ms ++ "-"%char :: r
  /\ number_text ms (int_of_digits ms) /\ (int_of_digits ms <= 12)%Z.
Proof.
  unfold month_dash. intros H.
  apply orelse_inv in H as [H|[_ H]]; [|apply orelse_inv in H as [H|[_ H]]];
    apply then_dash_inv in H.
  - apply two_chars_inv in H as (a & b & -> & -> & Fa & Fb).
    apply Ascii.eqb_eq in Fa. subst a. digit_facts Fb.
    rewrite int_of_digits_two by reflexivity.
    split; [reflexivity|]. split; [|digits_lia].
    left. exists "1"%char, b. repeat split; auto. digits_lia.
  - apply two_chars_inv in H as (a & b & -> & -> & Fa & Fb).
    apply Ascii.eqb_eq in Fa. subst a. digit_facts Fb.
    rewrite int_of_digits_two by reflexivity.
    split; [reflexivity|]. split; [|digits_lia].
    left. exists "0"%char, b. repeat split; auto. digits_lia.
  - apply one_char_inv in H as (a & -> & -> & Fa). digit_facts Fa.
    rewrite int_of_digits_one by (now apply digit_not_space).
    split; [reflexivity|]. split; [|digits_lia].
    right. now exists a.
Qed.

Lemma day_group_inv (s ds : str) :
  day_group s = Some (ds, []) ->
  s = ds /\ day_text ds (int_of_digits ds) /\ (int_of_digits ds <= 31)%Z.
Proof.
  unfold day_group. intros H.
  apply orelse_inv in H as [H|[_ H]];
    [|apply orelse_inv in H as [H|[_ H]];
      [|apply orelse_inv in H as [H|[_ H]];
        [|apply orelse_inv in H as [H|[_ H]]]]].
  - apply two_chars_inv in H as (a & b & -> & -> & Fa & Fb).
    apply Ascii.eqb_eq in Fa. subst a. digit_facts Fb.
    rewrite int_of_digits_two by reflexivity.
    split; [reflexivity|]. split; [|digits_lia].
    left. left. exists "3"%char, b. repeat split; auto. digits_lia.
  - apply two_chars_inv in H as (a & b & -> & -> & Fa & Fb). digit_facts Fa.
    assert (Vb : (0 <= dval b <= 9)%Z)
      by (pose proof (range_dval 48 57 b Fb eq_refl); digits_lia).
    rewrite int_of_digits_two by (now apply digit_not_space).
    split; [reflexivity|]. split; [|digits_lia].
    left. left. exists a, b. repeat split; auto. digits_lia.
  - apply two_chars_inv in H as (a & b & -> & -> & Fa & Fb).
    apply Ascii.eqb_eq in Fa. subst a. digit_facts Fb.
    rewrite int_of_digits_two by reflexivity.
    split; [reflexivity|]. split; [|digits_lia].
    left. left. exists "0"%char, b. repeat split; auto. digits_lia.
  - apply one_char_inv in H as (a & -> & -> & Fa). digit_facts Fa.
    rewrite int_of_digits_one by (now apply digit_not_space).
    split; [reflexivity|]. split; [|digits_lia].
    left. right. now exists a.
  - apply two_chars_inv in H as (a & b & -> & -> & Fa & Fb).
    apply Ascii.eqb_eq in Fa. subst a. digit_facts Fb.
    rewrite int_of_digits_blank by (now apply digit_not_space).
    split; [reflexivity|]. split; [|digits_lia].
    right. now exists b.
Qed.

Lemma int_of_digits_four (y1 y2 y3 y4 : ascii) :
  is_space y1 = false ->
  int_of_digits [y1; y2; y3; y4]
  = (1000 * dval y1 + 100 * dval y2 + 10 * dval y3 + dval y4)%Z.
Proof.
  intros H. unfold int_of_digits. rewrite (lstrip_fixed _ _ H).
  cbn [fold_left]. clear H. lia.
Qed.

Lemma forallb_head (f : ascii -> bool) (c : ascii) (l : str) :
  forallb f (c :: l) = true -> f c = true.
Proof. simpl. intros H. now apply andb_prop in H as [H _]. Qed.

Lemma year_dash_inv (s ys r : str) :
  year_dash s = Some (ys, r) ->
  s = ys ++ "-"%char :: r /\ year_text ys (int_of_digits ys).
Proof.
  unfold year_dash. intros H. apply then_dash_inv in H.
  destruct s as [|y1 [|y2 [|y3 [|y4 s]]]]; try discriminate.
  destruct (forallb is_digit [y1; y2; y3; y4]) eqn:D; [|discriminate].
  injection H as <- ->. split; [reflexivity|].
  exists y1, y2, y3, y4. repeat split; auto.
  apply int_of_digits_four, digit_not_space. exact (forallb_head _ _ _ D).
Qed.

Lemma year_dash_text (ys r : str) (y : Z) :
  year_text ys y ->
  year_dash (ys ++ "-"%char :: r) = Some (ys, r) /\ int_of_digits ys = y.
Proof.
  intros (y1 & y2 & y3 & y4 & -> & D & ->). split.
  - unfold year_dash. cbn [app]. now rewrite D.
  - apply int_of_digits_four, digit_not_space. exact (forallb_head _ _ _ D).
Qed.

Lemma digit_code (c : ascii) : is_digit c = true -> Z.of_N (code c) = (dval c + 48)%Z.
Proof. intros H. code_tests. lia. Qed.

Lemma digit_char (c : ascii) (k : Z) :
  is_digit c = true -> dval c = k -> c = ascii_of_N (Z.to_N (k + 48)).
Proof.
  intros D <-. rewrite <- (digit_code _ D), N2Z.id. unfold code.
  now rewrite ascii_N_embedding.
Qed.

Lemma in_range_of_dval (lo hi : N) (c : ascii) :
  is_digit c = true -> (Z.of_N lo <= dval c + 48 <= Z.of_N hi)%Z ->
  in_range lo hi c = true.
Proof.
  intros D V. rewrite <- (digit_code _ D) in V. clear D.
  unfold in_range. apply andb_true_intro. split; apply N.leb_le; lia.
Qed.

Lemma dval_bounds (c : ascii) : is_digit c = true -> (0 <= dval c <= 9)%Z.
Proof. intros D. pose proof (range_dval 48 57 c D eq_refl). digits_lia. Qed.

Lemma month_dash_text (ms r : str) (m : Z) :
  number_text ms m -> (m <= 12)%Z ->
  month_dash (ms ++ "-"%char :: r) = Some (ms, r) /\ int_of_digits ms = m.
Proof.
  intros [(a & b & -> & Da & Db & -> & L)|(a & -> & Na & ->)] U.
  - pose proof (dval_bounds _ Da) as Va. pose proof (dval_bounds _ Db) as Vb.
    rewrite int_of_digits_two by (now apply digit_not_space).
    split; [|reflexivity]. unfold month_dash, two_chars. cbn [app].
    assert (C : dval a = 0%Z \/ dval a = 1%Z) by digits_lia.
    destruct C as [C|C]; pose proof (digit_char _ _ Da C) as E; subst a.
    + change (Ascii.eqb "1" (ascii_of_N (Z.to_N (0 + 48)))) with false.
      change (Ascii.eqb "0" (ascii_of_N (Z.to_N (0 + 48)))) with true.
      rewrite (in_range_of_dval 49 57 b Db) by digits_lia. reflexivity.
    + change (Ascii.eqb "1" (ascii_of_N (Z.to_N (1 + 48)))) with true.
      rewrite (in_range_of_dval 48 50 b Db) by digits_lia. reflexivity.
  - pose proof (range_digit _ _ _ Na eq_refl eq_refl) as Da.
    rewrite int_of_digits_one by (now apply digit_not_space).
    split; [|reflexivity]. unfold month_dash, two_chars, one_char. cbn [app].
    change (in_range 48 50 "-") with false. change (in_range 49 57 "-") with false.
    rewrite !andb_false_r. unfold nonzero_digit in Na. now rewrite Na.
Qed.

Lemma day_group_text (ds : str) (d : Z) :
  day_text ds d -> (d <= 31)%Z ->
  day_group ds = Some (ds, []) /\ int_of_digits ds = d.
Proof.
  intros [[(a & b & -> & Da & Db & -> & L)|(a & -> & Na & ->)]|(a & -> & Na & ->)] U.
  - pose proof (dval_bounds _ Da) as Va. pose proof (dval_bounds _ Db) as Vb.
    rewrite int_of_digits_two by (now apply digit_not_space).
    split; [|reflexivity]. unfold day_group, two_chars, one_char.
    assert (C : dval a = 0%Z \/ dval a = 1%Z \/ dval a = 2%Z \/ dval a = 3%Z)
      by digits_lia.
    destruct C as [C|[C|[C|C]]]; pose proof (digit_char _ _ Da C) as E; subst a.
    + change (Ascii.eqb "3" (ascii_of_N (Z.to_N (0 + 48)))) with false.
      change (in_range 49 50 (ascii_of_N (Z.to_N (0 + 48)))) with false.
      change (Ascii.eqb "0" (ascii_of_N (Z.to_N (0 + 48)))) with true.
      rewrite (in_range_of_dval 49 57 b Db) by digits_lia. reflexivity.
    + change (Ascii.eqb "3" (ascii_of_N (Z.to_N (1 + 48)))) with false.
      change (in_range 49 50 (ascii_of_N (Z.to_N (1 + 48)))) with true.
      now rewrite Db.
    + change (Ascii.eqb "3" (ascii_of_N (Z.to_N (2 + 48)))) with false.
      change (in_range 49 50 (ascii_of_N (Z.to_N (2 + 48)))) with true.
      now rewrite Db.
    + change (Ascii.eqb "3" (ascii_of_N (Z.to_N (3 + 48)))) with true.
      rewrite (in_range_of_dval 48 49 b Db) by digits_lia. reflexivity.
  - pose proof (range_digit _ _ _ Na eq_refl eq_refl) as Da.
    rewrite int_of_digits_one by (now apply digit_not_space).
    split; [|reflexivity]. unfold day_group, two_chars, one_char.
    unfold nonzero_digit in Na. now rewrite Na.
  - pose proof (range_digit _ _ _ Na eq_refl eq_refl) as Da.
    rewrite int_of_digits_blank by (now apply digit_not_space).
    split; [|reflexivity]. unfold day_group, two_chars, one_char.
    change (Ascii.eqb "3" " ") with false. change (in_range 49 50 " ") with false.
    change (Ascii.eqb "0" " ") with false. change (in_range 49 57 " ") with false.
    change (Ascii.eqb " " " ") with true.
    unfold nonzero_digit in Na. now rewrite Na.
Qed.

Lemma days_in_month_bound (y m : Z) : (28 <= days_in_month y m <= 31)%Z.
Proof.
  unfold days_in_month.
  destruct m as [|[[[[|[]|]|[[]|[]|]|]|[[|[]|]|[]|]|]|[[[]|[]|]|[]|]|]|]; try lia;
    destruct (is_leap y); lia.
Qed.

(** [strptime] takes exactly the due strings of [accepted_due]. *)
Lemma strptime_accepts (due : str) : strptime due <> None <-> accepted_due due.
Proof.
  unfold strptime. split.
  - destruct (year_dash due) as [[ys r1]|] eqn:Y; [|congruence].
    destruct (month_dash r1) as [[ms r2]|] eqn:M; [|congruence].
    destruct (day_group r2) as [[ds [|? ?]]|] eqn:D; try congruence.
    destruct (valid_date _ _ _) eqn:V; [|congruence]. intros _.
    apply year_dash_inv in Y as (-> & Yt).
    apply month_dash_inv in M as (-> & Mt & Mu).
    apply day_group_inv in D as (-> & Dt & Du).
    exists ys, ms, ds, (int_of_digits ys), (int_of_digits ms), (int_of_digits ds).
    unfold valid_date in V.
    repeat (apply andb_prop in V as [V ?]).
    repeat match goal with H : (_ <=? _)%Z = true |- _ => apply Z.leb_le in H end.
    repeat split; auto.
  - intros (ys & ms & ds & y & m & d & -> & Yt & Mt & Dt & Ly & Um & Ud).
    pose proof (days_in_month_bound y m) as B.
    change (ys ++ "-" ++ ms ++ "-" ++ ds) with (ys ++ "-"%char :: ms ++ "-"%char :: ds).
    destruct (year_dash_text ys (ms ++ "-"%char :: ds) y Yt) as [-> Ey].
    destruct (month_dash_text ms ds m Mt Um) as [-> Em].
    destruct (day_group_text ds d Dt ltac:(lia)) as [-> Ed].
    rewrite Ey, Em, Ed.
    assert (Uy : (y <= 9999)%Z).
    { destruct Yt as (y1 & y2 & y3 & y4 & _ & D & ->). cbn [forallb] in D.
      repeat (apply andb_prop in D as [? D]).
      repeat match goal with H : is_digit _ = true |- _ => apply dval_bounds in H end.
      lia. }
    assert (Lm : (1 <= m)%Z).
    { destruct Mt as [(a & b & _ & _ & _ & _ & L)|(a & _ & Na & ->)]; [exact L|].
      pose proof (range_dval _ _ _ Na eq_refl). digits_lia. }
    assert (Ld : (1 <= d)%Z).
    { destruct Dt as [[(a & b & _ & _ & _ & _ & L)|(a & _ & Na & ->)]|(a & _ & Na & ->)];
        [exact L| |]; pose proof (range_dval _ _ _ Na eq_refl); digits_lia. }
    unfold valid_date.
    replace (1 <=? y)%Z with true by (symmetry; apply Z.leb_le; lia).
    replace (y <=? 9999)%Z with true by (symmetry; apply Z.leb_le; lia).
    replace (1 <=? m)%Z with true by (symmetry; apply Z.leb_le; lia).
    replace (m <=? 12)%Z with true by (symmetry; apply Z.leb_le; lia).
    replace (1 <=? d)%Z with true by (symmetry; apply Z.leb_le; lia).
    replace (d <=? days_in_month y m)%Z with true by (symmetry; apply Z.leb_le; lia).
    discriminate.
Qed.

(** * The claims *)

(** ** Claim C1: writing a block and reading it back *)

(** C1, as the code has it.  Reading back what [write_block] wrote gives
    the lines, for a text that holds a span or holds no start marker, and for
    lines that hold no line boundary and no end marker, the first starting and
    the last ending with a character that is not white space (or no line at
    all); when the text holds a span the lines must hold no backslash
    either. *)
Theorem parse_write_round_trip (text : str) (todos : list str) :
  (has_span text /\ Forall no_backslash todos) \/ ~ occurs TODO_START text ->
  Forall no_linebreak todos ->
  Forall (fun l => ~ occurs TODO_END l) todos ->
  trimmed_lines todos ->
  exists text', write_block text todos = Some text'
                /\ parse_todo_block text' = Some todos.
Proof.
  intros [[S B]|N] L E T.
  - destruct (search_block text) as [[[pre inner] post]|] eqn:Sb;
      [|now apply search_block_None_iff in Sb].
    pose proof Sb as Sb'. apply search_block_Some_iff in Sb' as (-> & F1 & F2).
    pose proof (new_block_no_backslash _ B) as Bn.
    unfold write_block.
    replace (contains TODO_START _) with true.
    2:{ symmetry. apply contains_iff. now exists pre, (inner ++ TODO_END ++ post). }
    replace (contains TODO_END _) with true.
    2:{ symmetry. apply contains_iff. exists (pre ++ TODO_START ++ inner), post.
        now rewrite <- !app_assoc. }
    cbn [andb]. rewrite (re_sub_block_literal _ _ Bn), Sb.
    unfold re_sub_block. rewrite (parse_template_literal _ Bn). cbn [option_map].
    eexists. split; [reflexivity|]. now apply parse_written.
  - unfold write_block.
    replace (contains TODO_START text) with false
      by (symmetry; destruct (contains TODO_START text) eqn:C; [|easy];
          apply contains_iff in C; contradiction).
    cbn [andb]. eexists. split; [reflexivity|].
    replace (text ++ [LF] ++ new_block todos)
      with ((text ++ [LF]) ++ new_block todos ++ [])
      by (now rewrite app_nil_r, <- app_assoc).
    apply parse_written; auto.
    apply first_after_sep; [|exact N]. apply not_In_forallb. reflexivity.
Qed.

(** The round trip on a block with an empty line inside, and on a line that
    ends with a backslash appended to a file without markers. *)
Lemma parse_write_round_trip_witness :
  (exists text', write_block empty_block ["(1) a"; ""; "(2) b c"] = Some text'
                 /\ parse_todo_block text' = Some ["(1) a"; ""; "(2) b c"])
  /\ (exists text', write_block "x = 1" ["(1) a\"] = Some text'
                    /\ parse_todo_block text' = Some ["(1) a\"]).
Proof.
  split.
  - apply parse_write_round_trip.
    + left. split.
      * exists [], [LF], []. reflexivity.
      * repeat constructor; apply not_In_forallb; reflexivity.
    + repeat constructor; intros c H; simpl in H;
        repeat (destruct H as [<-|H]; [reflexivity|]); destruct H.
    + repeat constructor; apply not_occurs_by_contains; reflexivity.
    + split; [now exists "("%char, "1) a"|now exists "(2) b ", "c"%char].
  - apply parse_write_round_trip.
    + right. apply not_occurs_by_contains. reflexivity.
    + repeat constructor; intros c H; simpl in H;
        repeat (destruct H as [<-|H]; [reflexivity|]); destruct H.
    + repeat constructor; apply not_occurs_by_contains; reflexivity.
    + split; [now exists "("%char, "1) a\"|now exists "(1) a", "\"%char].
Defined.

(** C1 as stated fails, each time on single-line strings without markers or
    newlines: a line that starts with a blank comes back stripped; a text
    with the end marker before the start marker is not rewritten, and has no
    block to read; in a text with a span, a backslash and [n] in a line come
    back as a line break; after a start marker without its end marker, the
    appended start marker comes back as a line. *)
Lemma parse_write_round_trip_counterexample :
  (write_block "x = 1" ["  indented"]
   = Some ("x = 1" ++ [LF] ++ new_block ["  indented"])
   /\ parse_todo_block ("x = 1" ++ [LF] ++ new_block ["  indented"])
      = Some ["indented"])
  /\ (write_block end_before_start ["(1) a"] = Some end_before_start
      /\ parse_todo_block end_before_start = None)
  /\ (write_block empty_block [backslash_n_line]
      = Some (new_block ["a"; "b"])
      /\ parse_todo_block (new_block ["a"; "b"]) = Some ["a"; "b"])
  /\ (write_block start_only ["(1) a"]
      = Some (start_only ++ [LF] ++ new_block ["(1) a"])
      /\ parse_todo_block (start_only ++ [LF] ++ new_block ["(1) a"])
         = Some [TODO_START; "(1) a"]).
Proof. repeat split. Qed.

(** ** Claim C2: [descending_id] *)

(** C2 on a block of two tasks: under [descending_id] the command shows no
    line, in whatever order; it ends in [AttributeError], where
    [ascending_id] shows the two lines. *)
Theorem descending_id_raises :
  list_file (Some "descending_id") two_task_block = AttributeError
  /\ list_file (Some "ascending_id") two_task_block
     = Shown [(0, "(1) a"); (1, "(2) b")].
Proof. split; reflexivity. Qed.

(** The branch raises on every list. *)
Lemma sort_todos_descending_id (todos : list str) :
  sort_todos (Some "descending_id") todos = None.
Proof. reflexivity. Qed.

(** The same through [list] on every file whose block is not empty; on an
    empty block the branch is not reached. *)
Lemma list_file_descending_id (file l : str) (todos : list str) :
  parse_todo_block (read_text file) = Some (l :: todos) ->
  list_file (Some "descending_id") file = AttributeError.
Proof.
  intros H. unfold list_file.
  change (existsb (str_eqb "descending_id") sort_options) with true.
  cbv iota. now rewrite H.
Qed.

Lemma list_file_descending_id_empty (file : str) :
  parse_todo_block (read_text file) = Some [] ->
  list_file (Some "descending_id") file = Shown [].
Proof.
  intros H. unfold list_file.
  change (existsb (str_eqb "descending_id") sort_options) with true.
  cbv iota. now rewrite H.
Qed.

(** ** Claim C3: [add] with a due date that is no date *)

(** C3 on a file without a block: [ensure_todo_block] has written the empty
    block before [build_task_line] rejects the date. *)
Theorem add_bad_due_initializes_block :
  add (Some "x = 1") "task" None (Some "2024-02-30") None
  = (BadParameter, Some ("x = 1" ++ [LF] ++ TODO_START ++ [LF] ++ TODO_END ++ [LF])).
Proof. reflexivity. Qed.

(** The same on every file whose text does not hold both markers. *)
Lemma add_bad_due_writes_unmarked_file (file task due : str) (priority : option Z)
    (assigned : option str) :
  ~ (occurs TODO_START (read_text file) /\ occurs TODO_END (read_text file)) ->
  due <> [] -> strptime due = None ->
  add (Some file) task priority (Some due) assigned
  = (BadParameter, Some (file ++ [LF] ++ TODO_START ++ [LF] ++ TODO_END ++ [LF])).
Proof.
  intros O N S. unfold add, ensure_todo_block. cbv zeta.
  replace (contains TODO_START (read_text file) && contains TODO_END (read_text file))
    with false.
  2:{ symmetry. apply andb_false_iff.
      destruct (contains TODO_START (read_text file)) eqn:C1; [|now left].
      destruct (contains TODO_END (read_text file)) eqn:C2; [|now right].
      exfalso. apply O. split; now apply contains_iff. }
  cbn [snd].
  now rewrite (proj2 (build_task_line_fails _ _ _ _ _) (conj N S)).
Qed.

(** A file whose text already holds both markers is left as it was. *)
Lemma add_bad_due_keeps_marked_file (file task due : str) (priority : option Z)
    (assigned : option str) :
  occurs TODO_START (read_text file) -> occurs TODO_END (read_text file) ->
  due <> [] -> strptime due = None ->
  add (Some file) task priority (Some due) assigned = (BadParameter, Some file).
Proof.
  intros O1 O2 N S. apply contains_iff in O1, O2.
  unfold add, ensure_todo_block. cbv zeta. rewrite O1, O2. cbn [andb snd].
  now rewrite (proj2 (build_task_line_fails _ _ _ _ _) (conj N S)).
Qed.

(** ** Claim C4: lines without a due date *)

(** C4, as the code has it.  A line without a due date has the key
    [9999-12-31].  Under [ascending_due_date] no line with an earlier key
    comes after it; under [descending_due_date] no line with an earlier key
    comes before it: it is last in the first order and first in the second.
    Both orders keep all the lines. *)
Theorem undated_line_order (todos : list str) (x : str) :
  undated x ->
  extract_due x = "9999-12-31"
  /\ exists up down,
       sort_todos (Some "ascending_due_date") todos = Some up
       /\ sort_todos (Some "descending_due_date") todos = Some down
       /\ Permutation todos up
       /\ Permutation todos down
       /\ (forall front back y,
             up = front ++ x :: back ->
             In y back -> str_ltb (extract_due y) "9999-12-31" = false)
       /\ (forall front back y,
             down = front ++ x :: back ->
             In y front -> str_ltb (extract_due y) "9999-12-31" = false).
Proof.
  intros U.
  assert (K : extract_due x = "9999-12-31") by (unfold extract_due; now rewrite U).
  split; [exact K|].
  exists (sorted extract_due todos), (sorted_reverse extract_due todos).
  split; [reflexivity|]. split; [reflexivity|]. repeat split.
  - apply sorted_perm.
  - unfold sorted_reverse. rewrite <- Permutation_rev, <- sorted_perm.
    apply Permutation_rev.
  - intros front back y E I. apply str_ltb_leb. rewrite <- K.
    exact (sorted_after _ _ _ _ _ _ E I).
  - intros front back y E I. apply str_ltb_leb. rewrite <- K.
    exact (sorted_reverse_before _ _ _ _ _ _ E I).
Qed.

Lemma undated_line_order_witness :
  extract_due "(2) b" = "9999-12-31"
  /\ exists up down,
       sort_todos (Some "ascending_due_date")
         ["(1) a Due: 2024-05-01"; "(2) b"; "(3) c Due: 2024-01-01"] = Some up
       /\ sort_todos (Some "descending_due_date")
            ["(1) a Due: 2024-05-01"; "(2) b"; "(3) c Due: 2024-01-01"] = Some down
       /\ Permutation ["(1) a Due: 2024-05-01"; "(2) b"; "(3) c Due: 2024-01-01"] up
       /\ Permutation ["(1) a Due: 2024-05-01"; "(2) b"; "(3) c Due: 2024-01-01"] down
       /\ (forall front back y,
             up = front ++ "(2) b" :: back ->
             In y back -> str_ltb (extract_due y) "9999-12-31" = false)
       /\ (forall front back y,
             down = front ++ "(2) b" :: back ->
             In y front -> str_ltb (extract_due y) "9999-12-31" = false).
Proof.
  apply (undated_line_order
           ["(1) a Due: 2024-05-01"; "(2) b"; "(3) c Due: 2024-01-01"] "(2) b").
  reflexivity.
Defined.

(** C4 as stated fails: under [descending_due_date] the line without a due
    date comes first, not last; and under [ascending_due_date] it stays in
    front of a later line dated [9999-12-31]. *)
Lemma undated_line_last_counterexample :
  sort_todos (Some "descending_due_date")
    ["(1) a Due: 2024-05-01"; "(2) b"; "(3) c Due: 2024-01-01"]
  = Some ["(2) b"; "(1) a Due: 2024-05-01"; "(3) c Due: 2024-01-01"]
  /\ sort_todos (Some "ascending_due_date") ["(1) a"; "(2) b Due: 9999-12-31"]
     = Some ["(1) a"; "(2) b Due: 9999-12-31"].
Proof. split; reflexivity. Qed.

(** ** Claim C5: the priority token *)

(** C5 at a priority outside 1..4 that is not zero: [format_priority]
    gives the empty string, [build_task_line] still adds it to the parts, and
    the line has two spaces where the claim has one. *)
Theorem build_task_line_priority_five :
  build_task_line 1 "Fix bug" (Some 5%Z) None None = Some "(1)  Fix bug"
  /\ build_task_line 1 "Fix bug" None None None = Some "(1) Fix bug".
Proof. split; reflexivity. Qed.

(** The rest of C5 holds: the four tokens, and no token for an absent or
    zero priority. *)
Lemma build_task_line_tokens :
  build_task_line 1 "t" (Some 1%Z) None None = Some "(1) [LOW] t"
  /\ build_task_line 1 "t" (Some 2%Z) None None = Some "(1) [MEDIUM] t"
  /\ build_task_line 1 "t" (Some 3%Z) None None = Some "(1) [HIGH] t"
  /\ build_task_line 1 "t" (Some 4%Z) None None = Some "(1) [URGENT] t".
Proof. repeat split. Qed.

Lemma format_priority_unknown (p : Z) :
  ~ (1 <= p <= 4)%Z -> format_priority (Some p) = "".
Proof.
  intros H. destruct p as [|[[[]|[]|]|[[]|[]|]|]|]; try reflexivity; exfalso; lia.
Qed.

(** Every priority outside 1..4 that is not zero leaves the empty field. *)
Lemma build_task_line_unknown_priority (index p : Z) (task : str) :
  p <> 0%Z -> ~ (1 <= p <= 4)%Z ->
  build_task_line index task (Some p) None None
  = Some ("(" ++ str_of_Z index ++ ")" ++ "  " ++ task).
Proof.
  intros Z R. unfold build_task_line, truthy_int.
  replace (p =? 0)%Z with false by (symmetry; now apply Z.eqb_neq).
  rewrite (format_priority_unknown _ R). cbn [negb app join].
  now rewrite <- !app_assoc.
Qed.

Lemma build_task_line_priority_zero (index : Z) (task : str) (due assigned : option str) :
  build_task_line index task (Some 0%Z) due assigned
  = build_task_line index task None due assigned.
Proof. reflexivity. Qed.

(** ** Claim C6: the due dates [build_task_line] takes *)

(** C6 at a date written without its zeros: [strptime] takes [2024-1-5],
    no error is raised, and the line gets a [Due:] field that is not in the
    form [YYYY-MM-DD] and that [extract_due] does not read: the line sorts as
    one without a due date. *)
Theorem build_task_line_unpadded_due :
  build_task_line 1 "Pay rent" None (Some "2024-1-5") None
  = Some "(1) Pay rent Due: 2024-1-5"
  /\ ~ zero_padded "2024-1-5"
  /\ extract_due "(1) Pay rent Due: 2024-1-5" = "9999-12-31".
Proof.
  split; [reflexivity|]. split; [|reflexivity].
  intros (y1 & y2 & y3 & y4 & m1 & m2 & d1 & d2 & E & _). discriminate E.
Qed.

(** The exact set, on text of Latin-1: the error is raised when, and only
    when, the due string is not empty and [strptime] does not take it. *)
Lemma build_task_line_fails_iff (index : Z) (task due : str) (priority : option Z)
    (assigned : option str) :
  build_task_line index task priority (Some due) assigned = None
  <-> due <> [] /\ ~ accepted_due due.
Proof.
  rewrite build_task_line_fails, <- strptime_accepts.
  destruct (strptime due); split; intros [N H]; split; auto; try congruence.
  now elim H.
Qed.

(** Every date in the zero-padded form is taken when it is a date of the
    calendar. *)
Lemma zero_padded_accepted (y1 y2 y3 y4 m1 m2 d1 d2 : ascii) :
  forallb is_digit [y1; y2; y3; y4; m1; m2; d1; d2] = true ->
  let y := (1000 * dval y1 + 100 * dval y2 + 10 * dval y3 + dval y4)%Z in
  let m := (10 * dval m1 + dval m2)%Z in
  let d := (10 * dval d1 + dval d2)%Z in
  (1 <= y)%Z -> (1 <= m <= 12)%Z -> (1 <= d <= days_in_month y m)%Z ->
  accepted_due [y1; y2; y3; y4; "-"%char; m1; m2; "-"%char; d1; d2].
Proof.
  intros D y m d Y M Dd. pose proof D as D'. cbn [forallb] in D.
  repeat (apply andb_prop in D as [? D]).
  exists [y1; y2; y3; y4], [m1; m2], [d1; d2], y, m, d.
  split; [reflexivity|]. split; [|split; [|split]].
  - exists y1, y2, y3, y4. split; [reflexivity|]. split; [|reflexivity].
    cbn [forallb]. repeat match goal with H : is_digit _ = true |- _ => rewrite H; clear H end.
    reflexivity.
  - left. exists m1, m2. repeat split; tauto.
  - left. left. exists d1, d2. repeat split; tauto.
  - tauto.
Qed.

(** The rest of C6 holds: every date of the calendar in the form
    [YYYY-MM-DD] is taken. *)
Lemma build_task_line_zero_padded (index : Z) (task : str) (priority : option Z)
    (assigned : option str) (y1 y2 y3 y4 m1 m2 d1 d2 : ascii) :
  forallb is_digit [y1; y2; y3; y4; m1; m2; d1; d2] = true ->
  let y := (1000 * dval y1 + 100 * dval y2 + 10 * dval y3 + dval y4)%Z in
  let m := (10 * dval m1 + dval m2)%Z in
  let d := (10 * dval d1 + dval d2)%Z in
  (1 <= y)%Z -> (1 <= m <= 12)%Z -> (1 <= d <= days_in_month y m)%Z ->
  build_task_line index task priority
    (Some [y1; y2; y3; y4; "-"%char; m1; m2; "-"%char; d1; d2]) assigned
  <> None.
Proof.
  intros D y m d Y M Dd H.
  apply build_task_line_fails_iff in H as [_ H]. apply H.
  now apply zero_padded_accepted.
Qed.

(** An empty due string is no due date: the line is the one of an absent
    due date, without a [Due:] field and without the error. *)
Lemma build_task_line_empty_due (index : Z) (task : str) (priority : option Z)
    (assigned : option str) :
  build_task_line index task priority (Some "") assigned
  = build_task_line index task priority None assigned
  /\ build_task_line index task priority None assigned <> None.
Proof.
  split; [reflexivity|].
  unfold build_task_line. destruct assigned as [[|? ?]|]; discriminate.
Qed.

(** ** Claim C7: [complete] renumbers the lines that stay *)



(** ** Claim C8: what [write_block] rewrites *)

(** C8, as the code has it.  [write_block] appends a line feed and the new
    block to a text that does not hold both markers.  In a text with spans,
    and for lines without a backslash (the block is the replacement template
    of [re.sub]), it replaces every span, each found from the left as the
    first start marker and the first end marker after it, and keeps the text
    between and after the spans. *)
Theorem write_block_rewrites_every_span (todos : list str) :
  (forall text,
      ~ (occurs TODO_START text /\ occurs TODO_END text) ->
      write_block text todos = Some (text ++ [LF] ++ new_block todos))
  /\ (Forall no_backslash todos ->
      forall cuts tail,
        cuts <> [] -> Forall leftmost_cut cuts -> ~ has_span tail ->
        write_block (assemble cuts tail) todos
        = Some (replace_spans (new_block todos) cuts tail)).
Proof.
  split.
  - intros text H. unfold write_block.
    destruct (contains TODO_START text) eqn:C1; [|reflexivity].
    destruct (contains TODO_END text) eqn:C2; [|reflexivity].
    exfalso. apply H. split; now apply contains_iff.
  - intros B cuts tail N C T. unfold write_block.
    destruct (assemble_occurs cuts tail N) as [O1 O2].
    apply contains_iff in O1, O2. rewrite O1, O2. cbn [andb].
    apply re_sub_block_assemble; auto using new_block_no_backslash.
Qed.

Lemma write_block_rewrites_every_span_witness :
  write_block "x = 1" ["(1) a"] = Some ("x = 1" ++ [LF] ++ new_block ["(1) a"])
  /\ write_block two_spans ["(1) a"]
     = Some (new_block ["(1) a"] ++ "-" ++ new_block ["(1) a"]).
Proof.
  split.
  - apply (proj1 (write_block_rewrites_every_span ["(1) a"])).
    intros [H _]. revert H. apply not_occurs_by_contains. reflexivity.
  - apply (proj2 (write_block_rewrites_every_span ["(1) a"])
             ltac:(repeat constructor; apply not_In_forallb; reflexivity)
             [("", "a"); ("-", "b")] "").
    + discriminate.
    + repeat constructor; apply first_after_by_partition; reflexivity.
    + apply no_span_by_search. reflexivity.
Defined.

(** C8 as stated fails: in a text with two spans the first is
    [("", "a", ...)] and the claim keeps the second span, but [write_block]
    rewrites both. *)
Lemma write_block_first_span_only_counterexample :
  search_block two_spans = Some ("", "a", "-" ++ TODO_START ++ "b" ++ TODO_END)
  /\ write_block two_spans ["t"] = Some (new_block ["t"] ++ "-" ++ new_block ["t"])
  /\ write_block two_spans ["t"]
     <> Some (new_block ["t"] ++ "-" ++ TODO_START ++ "b" ++ TODO_END).
Proof.
  split; [reflexivity|]. split; [reflexivity|]. discriminate.
Qed.

(** ** Claim C9: what [parse_todo_block] returns *)

(** C9, as the code has it.  [parse_todo_block] returns [None] exactly when
    the text has no span.  Otherwise it returns the lines of the stripped
    inner text of the first span: no line holds a line boundary, the first
    and the last line are not empty, and a blank inner text gives no line.
    (A line between two others may be empty.) *)
Theorem parse_todo_block_lines (text : str) :
  (parse_todo_block text = None <-> ~ has_span text)
  /\ (forall lines,
        parse_todo_block text = Some lines ->
        exists pre inner post,
          text = pre ++ TODO_START ++ inner ++ TODO_END ++ post
          /\ first_after TODO_START pre /\ first_after TODO_END inner
          /\ lines = splitlines (strip inner)
          /\ (blank inner -> lines = [])
          /\ Forall no_linebreak lines
          /\ (forall l rest, lines = l :: rest -> l <> [])
          /\ (forall front l, lines = front ++ [l] -> l <> [])).
Proof.
  rewrite parse_todo_block_unfold. split.
  - rewrite <- search_block_None_iff.
    destruct (search_block text) as [[[pre inner] post]|]; split; congruence.
  - intros lines H.
    destruct (search_block text) as [[[pre inner] post]|] eqn:S; [|discriminate].
    injection H as <-.
    apply search_block_Some_iff in S as (-> & F1 & F2).
    exists pre, inner, post. repeat split; auto.
    + intros B. now rewrite (strip_blank _ B).
    + apply splitlines_from_no_linebreak. intros ? [].
    + intros l rest. apply splitlines_strip_first.
    + intros front l. apply splitlines_strip_last.
Qed.

Lemma parse_todo_block_lines_witness :
  exists pre inner post,
    blank_line_block = pre ++ TODO_START ++ inner ++ TODO_END ++ post
    /\ first_after TODO_START pre /\ first_after TODO_END inner
    /\ ["(1) a"; ""; "(2) b"] = splitlines (strip inner)
    /\ (blank inner -> ["(1) a"; ""; "(2) b"] = [])
    /\ Forall no_linebreak ["(1) a"; ""; "(2) b"]
    /\ (forall l rest, ["(1) a"; ""; "(2) b"] = l :: rest -> l <> [])
    /\ (forall front l, ["(1) a"; ""; "(2) b"] = front ++ [l] -> l <> []).
Proof.
  apply (proj2 (parse_todo_block_lines blank_line_block)). reflexivity.
Defined.

(** C9 as stated fails: a blank line inside the block is returned as an
    empty element. *)
Lemma parse_todo_block_empty_line_counterexample :
  parse_todo_block blank_line_block = Some ["(1) a"; ""; "(2) b"]
  /\ ~ Forall (fun l : str => l <> []) ["(1) a"; ""; "(2) b"].
Proof.
  split; [reflexivity|].
  intros H. inversion H as [|? ? _ H1]; subst.
  inversion H1 as [|? ? H2 _]; subst. now apply H2.
Qed.

(** ** Claim C10: the sort keys are the first match in the line *)

(** C10, as the code has it.  The due-date key of a line is the date of
    the leftmost due field anywhere in the line, a due field being [Due:],
    white space or none, and a text of the form [dddd-dd-dd]; without such a
    field the key is [9999-12-31].  The assignee key is the word of the
    leftmost assignee field, in lower case, an assignee field being
    [Assigned:], white space or none, and a run of word characters taken as
    far as it goes; without such a field the key is empty.  So a field inside
    the description is the key when it comes first, and of a name only the
    word characters in front of its first other character count. *)
Theorem sort_keys_first_match (todo : str) :
  (forall d, first_field due_field todo d -> extract_due todo = d)
  /\ (no_field due_field todo -> extract_due todo = "9999-12-31")
  /\ (forall w, first_field assigned_field todo w -> extract_assigned todo = lower w)
  /\ (no_field assigned_field todo -> extract_assigned todo = "").
Proof.
  unfold extract_due, extract_assigned. repeat split.
  - intros d F. apply (search_at_first match_due due_field match_due_iff) in F.
    now rewrite F.
  - intros F. apply (search_at_nowhere match_due due_field match_due_iff) in F.
    now rewrite F.
  - intros w F.
    apply (search_at_first match_assigned assigned_field match_assigned_iff) in F.
    now rewrite F.
  - intros F.
    apply (search_at_nowhere match_assigned assigned_field match_assigned_iff) in F.
    now rewrite F.
Qed.

(** On the line [build_task_line] makes of a description that holds both
    fields: the keys are those of the description, not those of the fields
    that were given; and on a line whose date is not in the form. *)
Lemma sort_keys_first_match_witness :
  build_task_line 1 "see Due: 2020-01-01 notes Assigned: Bob" (Some 3%Z)
    (Some "2024-05-05") (Some "Ann Lee") = Some shadowed_line
  /\ extract_due shadowed_line = "2020-01-01"
  /\ extract_assigned shadowed_line = lower "Bob"
  /\ extract_due "(2) call Due: 2024-5-1" = "9999-12-31"
  /\ extract_assigned "(2) call Assigned: Ann Lee" = lower "Ann".
Proof.
  split; [reflexivity|]. split; [|split; [|split]].
  - apply (proj1 (sort_keys_first_match shadowed_line)).
    apply (search_at_first match_due due_field match_due_iff). reflexivity.
  - apply (proj1 (proj2 (proj2 (sort_keys_first_match shadowed_line)))).
    apply (search_at_first match_assigned assigned_field match_assigned_iff).
    reflexivity.
  - apply (proj1 (proj2 (sort_keys_first_match "(2) call Due: 2024-5-1"))).
    apply (search_at_nowhere match_due due_field match_due_iff). reflexivity.
  - apply (proj1 (proj2 (proj2 (sort_keys_first_match "(2) call Assigned: Ann Lee")))).
    apply (search_at_first match_assigned assigned_field match_assigned_iff).
    reflexivity.
Defined.

(** C10 as stated fails: the key of an assignee is not the first word up to
    the next white space; of [Ann-Marie] it is [ann]. *)
Lemma sort_keys_whole_word_counterexample :
  extract_assigned "(2) call Assigned: Ann-Marie Lee" = "ann"
  /\ extract_assigned "(2) call Assigned: Ann-Marie Lee" <> lower "Ann-Marie".
Proof.
  split; [reflexivity|]. intros H. vm_compute in H. discriminate H.
Qed.

(** * Further properties of the code *)

(** ** Initializing, scanning and cleaning *)

Lemma ensure_todo_block_cases (file : str) :
  (occurs TODO_START (read_text file) /\ occurs TODO_END (read_text file)
   /\ ensure_todo_block file = (false, file))
  \/ (~ (occurs TODO_START (read_text file) /\ occurs TODO_END (read_text file))
      /\ ensure_todo_block file
         = (true, file ++ [LF] ++ TODO_START ++ [LF] ++ TODO_END ++ [LF])).
Proof.
  unfold ensure_todo_block. cbv zeta.
  destruct (contains TODO_START (read_text file)) eqn:C1; cbn [andb].
  - destruct (contains TODO_END (read_text file)) eqn:C2.
    + left. repeat split; now apply contains_iff.
    + right. split; [|reflexivity]. intros [_ O]. apply contains_iff in O. congruence.
  - right. split; [|reflexivity]. intros [O _]. apply contains_iff in O. congruence.
Qed.

(** The text read after the empty block was appended: the block follows the
    text of the file and a line feed, which is the one appended or, when the
    file ends with a carriage return, the one that carriage return is read
    as. *)
Lemma read_text_initialized (file : str) :
  exists t,
    read_text (file ++ [LF] ++ TODO_START ++ [LF] ++ TODO_END ++ [LF])
    = (t ++ [LF]) ++ TODO_START ++ [LF] ++ TODO_END ++ [LF]
    /\ (read_text file = t \/ read_text file = t ++ [LF]).
Proof.
  destruct (read_text_snoc_lf file) as (t & E & H). exists t. split; [|exact H].
  change (file ++ [LF] ++ TODO_START ++ [LF] ++ TODO_END ++ [LF])
    with (file ++ LF :: TODO_START ++ [LF] ++ TODO_END ++ [LF]).
  rewrite read_text_app by discriminate. rewrite E. reflexivity.
Qed.

Lemma ensure_todo_block_marked (file : str) :
  occurs TODO_START (read_text (snd (ensure_todo_block file)))
  /\ occurs TODO_END (read_text (snd (ensure_todo_block file))).
Proof.
  destruct (ensure_todo_block_cases file) as [(O1 & O2 & ->)|[_ ->]]; cbn [snd];
    [now split|].
  destruct (read_text_initialized file) as (t & -> & _). split.
  - now exists (t ++ [LF]), ([LF] ++ TODO_END ++ [LF]).
  - exists ((t ++ [LF]) ++ TODO_START ++ [LF]), [LF]. now rewrite <- !app_assoc.
Qed.

Lemma ensure_todo_block_again (file : str) :
  ensure_todo_block (snd (ensure_todo_block file))
  = (false, snd (ensure_todo_block file)).
Proof.
  destruct (ensure_todo_block_marked file) as [O1 O2].
  apply contains_iff in O1, O2.
  unfold ensure_todo_block at 1. cbv zeta. now rewrite O1, O2.
Qed.

(** After [ensure_todo_block] on a file whose text holds no start marker,
    the first span of the text read is the one that was added, and it is
    empty. *)
Lemma search_block_initialized (file : str) :
  ~ occurs TODO_START (read_text file) ->
  exists t,
    read_text (snd (ensure_todo_block file))
    = (t ++ [LF]) ++ TODO_START ++ [LF] ++ TODO_END ++ [LF]
    /\ (read_text file = t \/ read_text file = t ++ [LF])
    /\ search_block ((t ++ [LF]) ++ TODO_START ++ [LF] ++ TODO_END ++ [LF])
       = Some (t ++ [LF], [LF], [LF]).
Proof.
  intros N.
  assert (E : snd (ensure_todo_block file)
              = file ++ [LF] ++ TODO_START ++ [LF] ++ TODO_END ++ [LF]).
  { destruct (ensure_todo_block_cases file) as [(O1 & _)|[_ ->]];
      [contradiction|reflexivity]. }
  rewrite E. destruct (read_text_initialized file) as (t & R & H).
  exists t. split; [exact R|]. split; [exact H|].
  apply search_block_Some_iff. split; [reflexivity|]. split.
  - apply first_after_sep; [apply not_In_forallb; reflexivity|].
    intros O. apply N. destruct H as [-> | ->]; [exact O|].
    destruct O as (a & b & ->). exists a, (b ++ [LF]). now rewrite <- !app_assoc.
  - apply first_after_by_partition. reflexivity.
Qed.

Lemma strip_spans_fuel (n m : nat) (text : str) :
  length text <= n -> length text <= m -> strip_spans n text = strip_spans m text.
Proof.
  revert m text; induction n as [|n IH]; intros m text Ln Lm.
  - destruct text; [|simpl in Ln; lia]. destruct m; reflexivity.
  - destruct m as [|m].
    + destruct text; [reflexivity|simpl in Lm; lia].
    + simpl. destruct (search_block text) as [[[pre inner] post]|] eqn:S; [|reflexivity].
      apply search_block_shorter in S.
      assert (L : length (drop_first_lf post) <= length post).
      { destruct post as [|c post]; simpl; [lia|]. destruct (Ascii.eqb c LF); simpl; lia. }
      f_equal. apply IH; lia.
Qed.

Lemma strip_spans_unfold (text : str) :
  strip_spans (length text) text =
  match search_block text with
  | None => text
  | Some (pre, _, post) =>
      drop_last_lf pre
        ++ strip_spans (length (drop_first_lf post)) (drop_first_lf post)
  end.
Proof.
  destruct text as [|c text]; [reflexivity|].
  cbn [length strip_spans].
  destruct (search_block (c :: text)) as [[[pre inner] post]|] eqn:S; [|reflexivity].
  apply search_block_shorter in S. simpl in S.
  assert (L : length (drop_first_lf post) <= length post).
  { destruct post as [|d post]; simpl; [lia|]. destruct (Ascii.eqb d LF); simpl; lia. }
  f_equal. apply strip_spans_fuel; lia.
Qed.

Lemma drop_last_lf_snoc (s : str) : drop_last_lf (s ++ [LF]) = s.
Proof.
  unfold drop_last_lf. rewrite rev_app_distr. simpl. apply rev_involutive.
Qed.

Lemma drop_first_lf_gap (g x : str) :
  drop_first_lf (g ++ TODO_START ++ x) = drop_first_lf g ++ TODO_START ++ x.
Proof.
  destruct g as [|c g]; [reflexivity|]. simpl. now destruct (Ascii.eqb c LF).
Qed.

Lemma first_after_drop_first_lf (p g : str) :
  first_after p g -> first_after p (drop_first_lf g).
Proof.
  destruct g as [|c g]; [auto|]. simpl. intros H.
  destruct (Ascii.eqb c LF); [|exact H]. eapply first_after_tail, H.
Qed.

Lemma no_span_drop_first_lf (tail : str) :
  ~ has_span tail -> ~ has_span (drop_first_lf tail).
Proof.
  destruct tail as [|c tail]; [auto|]. simpl.
  destruct (Ascii.eqb c LF); [|auto].
  intros H (a & m & b & E). apply H. exists (c :: a), m, b. simpl. now rewrite E.
Qed.

Lemma strip_spans_cuts (first : bool) (cuts : list (str * str)) (tail : str) :
  Forall leftmost_cut cuts -> ~ has_span tail ->
  let text := if first then assemble cuts tail else drop_first_lf (assemble cuts tail) in
  strip_spans (length text) text = kept_text first cuts tail.
Proof.
  intros C T. revert first. induction C as [|[g m] cuts [F1 F2] C IH]; intros first text.
  - subst text. rewrite strip_spans_unfold. cbn [assemble]. cbn [kept_text].
    destruct first.
    + apply search_block_None_iff in T. now rewrite T.
    + apply no_span_drop_first_lf, search_block_None_iff in T. now rewrite T.
  - assert (S : search_block text
                = Some (if first then g else drop_first_lf g, m, assemble cuts tail)).
    { subst text. apply search_block_Some_iff. simpl in F1, F2. destruct first.
      - repeat split; auto.
      - cbn [assemble]. rewrite drop_first_lf_gap.
        repeat split; auto using first_after_drop_first_lf. }
    rewrite strip_spans_unfold, S. cbn [kept_text]. f_equal. apply (IH false).
Qed.

Lemma scan_file_text (file : str) :
  snd (scan_file file) = snd (ensure_todo_block file).
Proof. unfold scan_file. now destruct (ensure_todo_block file). Qed.

(** X1.  After [ensure_todo_block] the text of the file holds both markers,
    and a second call adds nothing to the file. *)
Theorem ensure_todo_block_idempotent (file : str) :
  occurs TODO_START (read_text (snd (ensure_todo_block file)))
  /\ occurs TODO_END (read_text (snd (ensure_todo_block file)))
  /\ ensure_todo_block (snd (ensure_todo_block file))
     = (false, snd (ensure_todo_block file)).
Proof.
  destruct (ensure_todo_block_marked file) as [O1 O2].
  repeat split; auto. apply ensure_todo_block_again.
Qed.

(** X2.  On a file whose text holds no start marker the block that
    [ensure_todo_block] adds is read as a block with no task, not as a
    missing block. *)
Theorem parse_initialized_block (file : str) :
  ~ occurs TODO_START (read_text file) ->
  ensure_todo_block file
  = (true, file ++ [LF] ++ TODO_START ++ [LF] ++ TODO_END ++ [LF])
  /\ parse_todo_block (read_text (snd (ensure_todo_block file))) = Some [].
Proof.
  intros N. destruct (search_block_initialized file N) as (t & R & _ & S). split.
  - destruct (ensure_todo_block_cases file) as [(O1 & _)|[_ H]];
      [contradiction|exact H].
  - rewrite R, parse_todo_block_unfold, S. reflexivity.
Qed.

(** On a file of one line, and on the same file with a carriage return at
    its end. *)
Lemma parse_initialized_block_witness :
  (ensure_todo_block "x = 1"
   = (true, "x = 1" ++ [LF] ++ TODO_START ++ [LF] ++ TODO_END ++ [LF])
   /\ parse_todo_block (read_text (snd (ensure_todo_block "x = 1"))) = Some [])
  /\ (ensure_todo_block ("x = 1" ++ [CR])
      = (true, ("x = 1" ++ [CR]) ++ [LF] ++ TODO_START ++ [LF] ++ TODO_END ++ [LF])
      /\ parse_todo_block (read_text (snd (ensure_todo_block ("x = 1" ++ [CR]))))
         = Some []).
Proof.
  split.
  - apply (parse_initialized_block "x = 1").
    apply not_occurs_by_contains. reflexivity.
  - apply (parse_initialized_block ("x = 1" ++ [CR])).
    apply not_occurs_by_contains. reflexivity.
Defined.

(** X3.  A second [scan] of a file never reports that it initialized the
    block and leaves the file as the first scan left it. *)
Theorem scan_file_again (file : str) :
  snd (scan_file (snd (scan_file file))) = snd (scan_file file)
  /\ fst (scan_file (snd (scan_file file))) <> Initialized.
Proof.
  rewrite (scan_file_text file).
  unfold scan_file. rewrite ensure_todo_block_again. cbn [fst snd].
  split; [reflexivity|].
  destruct (parse_todo_block _) as [[|? ?]|]; discriminate.
Qed.

(** X4.  [clean] undoes [ensure_todo_block] on a file that holds no carriage
    return and no start marker: adding the block and cleaning gives the file
    back, character by character. *)
Theorem clean_file_after_ensure (file : str) :
  ~ In CR file -> ~ occurs TODO_START file ->
  clean_file (snd (ensure_todo_block file)) = (true, file).
Proof.
  intros P N. pose proof (read_text_plain _ P) as RP.
  assert (E : snd (ensure_todo_block file)
              = file ++ [LF] ++ TODO_START ++ [LF] ++ TODO_END ++ [LF]).
  { destruct (ensure_todo_block_cases file) as [(O1 & _)|[_ ->]]; [|reflexivity].
    rewrite RP in O1. contradiction. }
  assert (R : read_text (file ++ [LF] ++ TODO_START ++ [LF] ++ TODO_END ++ [LF])
              = file ++ [LF] ++ TODO_START ++ [LF] ++ TODO_END ++ [LF]).
  { apply read_text_plain. intros F. apply in_app_iff in F as [F|F]; [exact (P F)|].
    revert F. apply not_In_forallb. reflexivity. }
  assert (S : search_block (file ++ [LF] ++ TODO_START ++ [LF] ++ TODO_END ++ [LF])
              = Some (file ++ [LF], [LF], [LF])).
  { apply search_block_Some_iff. split; [now rewrite <- !app_assoc|]. split.
    - apply first_after_sep; [|exact N]. apply not_In_forallb. reflexivity.
    - apply first_after_by_partition. reflexivity. }
  destruct (ensure_todo_block_marked file) as [O1 O2].
  rewrite E, R in O1, O2. apply contains_iff in O1, O2.
  unfold clean_file. cbv zeta. rewrite E, R, O1, O2. cbn [andb]. f_equal.
  rewrite strip_spans_unfold, S, drop_last_lf_snoc. simpl.
  apply app_nil_r.
Qed.

Lemma clean_file_after_ensure_witness :
  clean_file (snd (ensure_todo_block "x = 1")) = (true, "x = 1").
Proof.
  apply (clean_file_after_ensure "x = 1").
  - apply not_In_forallb. reflexivity.
  - apply not_occurs_by_contains. reflexivity.
Defined.

(** X5.  [clean] removes every span of the text it reads, each found from
    the left, together with the line feed just in front of it and the line
    feed just after it, and writes the rest of the text. *)
Theorem clean_file_removes_every_span (file : str) (cuts : list (str * str))
    (tail : str) :
  read_text file = assemble cuts tail ->
  cuts <> [] -> Forall leftmost_cut cuts -> ~ has_span tail ->
  clean_file file = (true, kept_text true cuts tail).
Proof.
  intros R N C T. destruct (assemble_occurs cuts tail N) as [O1 O2].
  apply contains_iff in O1, O2.
  unfold clean_file. cbv zeta. rewrite R, O1, O2. cbn [andb]. f_equal.
  exact (strip_spans_cuts true cuts tail C T).
Qed.

(** On a file of two blocks, the first after a line that ends with CR LF. *)
Lemma clean_file_removes_every_span_witness :
  clean_file ("a" ++ [CR; LF] ++ TODO_START ++ "x" ++ TODO_END ++ [LF; LF]
                  ++ TODO_START ++ "y" ++ TODO_END ++ "b")
  = (true, "ab").
Proof.
  apply (clean_file_removes_every_span _
           [("a" ++ [LF], "x"); ([LF; LF], "y")] "b").
  - reflexivity.
  - discriminate.
  - repeat constructor; apply first_after_by_partition; reflexivity.
  - apply no_span_by_search. reflexivity.
Defined.

(** X6.  [parse_todo_block] reads the first span only: the text after it,
    later blocks included, and the text in front of it do not change the
    result. *)
Theorem parse_todo_block_first_span (pre inner post pre' post' : str) :
  first_after TODO_START pre -> first_after TODO_END inner ->
  first_after TODO_START pre' ->
  parse_todo_block (pre' ++ TODO_START ++ inner ++ TODO_END ++ post')
  = parse_todo_block (pre ++ TODO_START ++ inner ++ TODO_END ++ post).
Proof.
  intros F1 F2 F3. rewrite !parse_todo_block_unfold.
  rewrite (proj2 (search_block_Some_iff
                    (pre ++ TODO_START ++ inner ++ TODO_END ++ post) pre inner post))
    by (repeat split; auto).
  rewrite (proj2 (search_block_Some_iff
                    (pre' ++ TODO_START ++ inner ++ TODO_END ++ post') pre' inner post'))
    by (repeat split; auto).
  reflexivity.
Qed.

Lemma parse_todo_block_first_span_witness :
  parse_todo_block ("x = 1" ++ TODO_START ++ "(1) a" ++ TODO_END
                            ++ TODO_START ++ "(1) b" ++ TODO_END)
  = parse_todo_block ("" ++ TODO_START ++ "(1) a" ++ TODO_END ++ "").
Proof.
  apply (parse_todo_block_first_span "" "(1) a" "" "x = 1"
           (TODO_START ++ "(1) b" ++ TODO_END));
    apply first_after_by_partition; reflexivity.
Defined.

(** ** Sorting and listing *)

Lemma str_compare_eq (a b : str) : str_compare a b = Eq -> a = b.
Proof.
  revert b; induction a as [|x a IH]; intros [|y b]; simpl; try discriminate; auto.
  destruct (N.compare_spec (code x) (code y)) as [E|L|G]; try discriminate.
  intros H. f_equal; [|now apply IH].
  unfold code in E. now rewrite <- (ascii_N_embedding x), <- (ascii_N_embedding y), E.
Qed.

Lemma str_compare_refl (a : str) : str_compare a a = Eq.
Proof. induction a as [|x a IH]; simpl; [reflexivity|]. now rewrite N.compare_refl. Qed.

Lemma str_eqb_eq (a b : str) : str_eqb a b = true <-> a = b.
Proof.
  unfold str_eqb. split.
  - destruct (str_compare a b) eqn:E; try discriminate. intros _. now apply str_compare_eq.
  - intros ->. now rewrite str_compare_refl.
Qed.

Section SortingMore.
Variable key : str -> str.

Lemma sorted_reverse_perm (l : list str) : Permutation l (sorted_reverse key l).
Proof.
  unfold sorted_reverse. rewrite <- Permutation_rev, <- sorted_perm.
  apply Permutation_rev.
Qed.

Lemma strongly_sorted_snoc {A : Type} (R : A -> A -> Prop) (l : list A) (x : A) :
  StronglySorted R l -> Forall (fun y => R y x) l -> StronglySorted R (l ++ [x]).
Proof.
  induction 1 as [|y l S IH F]; intros H; simpl.
  - repeat constructor.
  - inversion H; subst. constructor; [now apply IH|].
    apply Forall_app. split; [exact F|]. now constructor.
Qed.

Lemma strongly_sorted_rev {A : Type} (R : A -> A -> Prop) (l : list A) :
  StronglySorted R l -> StronglySorted (fun a b => R b a) (rev l).
Proof.
  induction 1 as [|y l S IH F]; simpl; [constructor|].
  apply strongly_sorted_snoc; [exact IH|]. now apply Forall_rev.
Qed.

Lemma sorted_reverse_sorted (l : list str) :
  StronglySorted (key_ge key) (sorted_reverse key l).
Proof. apply (strongly_sorted_rev (key_le key)), sorted_sorted. Qed.

Lemma insert_by_with_key (k x : str) (l : list str) :
  with_key key k (insert_by key x l) = with_key key k (x :: l).
Proof.
  unfold with_key. induction l as [|y l IH]; [reflexivity|].
  simpl insert_by. destruct (str_leb (key x) (key y)) eqn:E; [reflexivity|].
  simpl filter in *. rewrite IH.
  destruct (str_eqb (key x) k) eqn:X; [|reflexivity].
  apply str_eqb_eq in X. subst k.
  replace (str_eqb (key y) (key x)) with false; [reflexivity|].
  symmetry. unfold str_eqb, str_leb in *. rewrite (str_compare_antisym (key x) (key y)).
  destruct (str_compare (key x) (key y)); simpl; congruence.
Qed.

Lemma sorted_with_key (k : str) (l : list str) :
  with_key key k (sorted key l) = with_key key k l.
Proof.
  induction l as [|x l IH]; [reflexivity|].
  simpl sorted. rewrite insert_by_with_key. unfold with_key in *. simpl. now rewrite IH.
Qed.

Lemma with_key_rev (k : str) (l : list str) :
  with_key key k (rev l) = rev (with_key key k l).
Proof.
  unfold with_key. induction l as [|x l IH]; [reflexivity|].
  simpl. rewrite filter_app, IH. simpl.
  destruct (str_eqb (key x) k); simpl; [reflexivity|apply app_nil_r].
Qed.

Lemma sorted_reverse_with_key (k : str) (l : list str) :
  with_key key k (sorted_reverse key l) = with_key key k l.
Proof.
  unfold sorted_reverse.
  now rewrite with_key_rev, sorted_with_key, with_key_rev, rev_involutive.
Qed.

End SortingMore.

(** X7.  [descending_id], and no other sort option, ends in the exception.
    Under every other option, and without one, [list] shows the lines of the
    block, each as often as it is there: the list shown is a permutation of
    the lines. *)
Theorem sort_todos_permutation (sort : option str) (todos : list str) :
  (sort_todos sort todos = None <-> sort = Some "descending_id")
  /\ (forall shown, sort_todos sort todos = Some shown -> Permutation todos shown).
Proof.
  unfold sort_todos. destruct sort as [k|].
  2:{ split; [split; discriminate|]. intros shown [= <-]. reflexivity. }
  - destruct (str_eqb k "ascending_id") eqn:E1.
    { split; [split; [discriminate|]|intros shown [= <-]; reflexivity].
      intros [= ->]. vm_compute in E1. discriminate E1. }
    destruct (str_eqb k "descending_id") eqn:E2.
    { apply str_eqb_eq in E2. subst k. split; [now split|discriminate]. }
    assert (N : Some k <> Some "descending_id").
    { intros [= ->]. vm_compute in E2. discriminate E2. }
    repeat match goal with
           | |- context [if ?c then _ else _] => destruct c
           end;
      (split; [split; [discriminate|intros H; now elim N]|]);
      intros shown [= <-];
      auto using Permutation_refl, sorted_perm, sorted_reverse_perm.
Qed.

(** X8.  The three ascending sorts give the lines with their keys going up,
    the three descending sorts with their keys going down, in the order of
    strings by code point: the key is the whole line in lower case, the due
    date, or the assignee. *)
Theorem sort_todos_ordered (todos : list str) :
  shows "a-z" todos (StronglySorted (key_le lower))
  /\ shows "z-a" todos (StronglySorted (key_ge lower))
  /\ shows "ascending_due_date" todos (StronglySorted (key_le extract_due))
  /\ shows "descending_due_date" todos (StronglySorted (key_ge extract_due))
  /\ shows "a-z_assignedname" todos (StronglySorted (key_le extract_assigned))
  /\ shows "z-a_assignedname" todos (StronglySorted (key_ge extract_assigned)).
Proof.
  unfold shows. repeat apply conj; (eexists; split; [reflexivity|]);
    first [apply sorted_sorted|apply sorted_reverse_sorted].
Qed.

(** X9.  The six sorts by a key are stable, the descending ones too: the
    lines that have one and the same key stay in the order of the file. *)
Theorem sort_todos_stable (k : str) (todos : list str) :
  shows "a-z" todos (fun shown => with_key lower k shown = with_key lower k todos)
  /\ shows "z-a" todos (fun shown => with_key lower k shown = with_key lower k todos)
  /\ shows "ascending_due_date" todos
       (fun shown => with_key extract_due k shown = with_key extract_due k todos)
  /\ shows "descending_due_date" todos
       (fun shown => with_key extract_due k shown = with_key extract_due k todos)
  /\ shows "a-z_assignedname" todos
       (fun shown => with_key extract_assigned k shown
                     = with_key extract_assigned k todos)
  /\ shows "z-a_assignedname" todos
       (fun shown => with_key extract_assigned k shown
                     = with_key extract_assigned k todos).
Proof.
  unfold shows. repeat apply conj; (eexists; split; [reflexivity|]);
    first [apply sorted_with_key|apply sorted_reverse_with_key].
Qed.

(** ** Listing and completing *)

Lemma enumerate_from_In {A : Type} (l : list A) (k i : nat) (x d : A) :
  In (i, x) (enumerate_from k l) ->
  k <= i /\ i - k < length l /\ nth (i - k) l d = x.
Proof.
  revert k; induction l as [|y l IH]; intros k; simpl; [intros []|].
  intros [[= <- <-]|H].
  - rewrite Nat.sub_diag. repeat split; lia.
  - destruct (IH _ H) as (L & B & E).
    replace (i - k) with (S (i - S k)) by lia. repeat split; try lia. exact E.
Qed.

Lemma complete_todos_Some (todos : list str) (id : nat) :
  id < length todos ->
  complete_todos todos (Z.of_nat id)
  = Some (nth id todos [],
          map (fun it => renumber (fst it) (snd it)) (enumerate_from 0 (pop id todos))).
Proof.
  intros L. unfold complete_todos.
  destruct todos as [|t todos]; [simpl in L; lia|].
  replace ((Z.of_nat id <? 0)%Z || (Z.of_nat id >=? Z.of_nat (length (t :: todos)))%Z)
    with false
    by (symmetry; apply orb_false_iff; split;
        [apply Z.ltb_ge|rewrite Z.geb_leb; apply Z.leb_gt]; lia).
  now rewrite Nat2Z.id.
Qed.

(** X10.  The numbers that [list] shows without a sort option (or with
    [ascending_id]) are the ids that [complete] takes: for a line shown as
    [[i] line], completing id [i] removes that very line. *)
Theorem list_ids_complete (sort : option str) (file line : str) (i : nat)
    (entries : list (nat * str)) :
  sort = None \/ sort = Some "ascending_id" ->
  list_file sort file = Shown entries -> In (i, line) entries ->
  exists todos updated,
    parse_todo_block (read_text file) = Some todos
    /\ complete_todos todos (Z.of_nat i) = Some (line, updated).
Proof.
  intros S L I.
  assert (E : exists todos, parse_todo_block (read_text file) = Some todos
                            /\ entries = enumerate_from 0 todos).
  { destruct S as [->| ->]; unfold list_file in L.
    - destruct (parse_todo_block (read_text file)) as [todos|].
      + exists todos. split; congruence.
      + injection L as <-. destruct I.
    - change (existsb (str_eqb "ascending_id") sort_options) with true in L.
      cbv iota in L. destruct (parse_todo_block (read_text file)) as [[|t todos]|].
      + injection L as <-. destruct I.
      + exists (t :: todos). split; [reflexivity|].
        change (sort_todos (Some "ascending_id") (t :: todos))
          with (Some (t :: todos)) in L.
        congruence.
      + injection L as <-. destruct I. }
  destruct E as (todos & P & ->).
  destruct (enumerate_from_In todos 0 i line [] I) as (_ & B & N).
  rewrite Nat.sub_0_r in B, N.
  exists todos. eexists. split; [exact P|].
  rewrite (complete_todos_Some todos i B), N. reflexivity.
Qed.

Lemma list_ids_complete_witness :
  exists todos updated,
    parse_todo_block (read_text blank_line_block) = Some todos
    /\ complete_todos todos (Z.of_nat 2) = Some ("(2) b", updated).
Proof.
  apply (list_ids_complete None blank_line_block "(2) b" 2
           [(0, "(1) a"); (1, ""); (2, "(2) b")]).
  - now left.
  - reflexivity.
  - simpl. auto.
Defined.

(** X11.  The list step of [complete] fails exactly on an empty list and on
    an id below zero or not below the number of lines; otherwise it gives
    back the line at the id and one line less. *)
Theorem complete_todos_bounds (todos : list str) (id : Z) :
  (complete_todos todos id = None
   <-> todos = [] \/ (id < 0)%Z \/ (Z.of_nat (length todos) <= id)%Z)
  /\ (forall removed updated,
        complete_todos todos id = Some (removed, updated) ->
        removed = nth (Z.to_nat id) todos []
        /\ length updated = length todos - 1).
Proof.
  unfold complete_todos. destruct todos as [|t todos].
  - split; [split; auto|discriminate].
  - destruct (Z.ltb_spec id 0) as [L|L]; cbn [orb].
    + split; [split; auto|discriminate].
    + rewrite Z.geb_leb. destruct (Z.leb_spec (Z.of_nat (length (t :: todos))) id) as [G|G].
      * split; [split; auto|discriminate].
      * split.
        -- split; [discriminate|]. intros [H|[H|H]]; [discriminate|lia|lia].
        -- intros removed updated [= <- <-]. split; [reflexivity|].
           rewrite length_map, enumerate_from_length, pop_length; [reflexivity|lia].
Qed.

(** X12.  [complete] rewrites the file only when it runs to its end: on
    every exit and on an exception of [re.sub] the file is what it was. *)
Theorem complete_keeps_file_on_failure (file : option str) (id : Z) :
  fst (complete file id) <> Done -> snd (complete file id) = file.
Proof.
  unfold complete. destruct file as [stored|]; [|reflexivity]. cbv zeta.
  destruct (parse_todo_block (read_text stored)) as [todos|]; [|reflexivity].
  destruct (complete_todos todos id) as [[removed updated]|]; [|reflexivity].
  destruct (re_sub_block (new_block updated) (read_text stored)); [|reflexivity].
  simpl. congruence.
Qed.

Lemma complete_keeps_file_on_failure_witness :
  snd (complete (Some blank_line_block) 7) = Some blank_line_block.
Proof.
  apply (complete_keeps_file_on_failure (Some blank_line_block) 7). discriminate.
Defined.

(** ** The lines that [build_task_line] makes *)

Lemma uint_chars (d : Decimal.uint) (c : ascii) :
  In c (String.list_ascii_of_string (DecimalString.NilEmpty.string_of_uint d)) ->
  is_digit c = true.
Proof.
  induction d; simpl; [intros []|intros [<-|H]; auto ..].
Qed.

Lemma uint_zero_chars (d : Decimal.uint) (c : ascii) :
  In c (String.list_ascii_of_string (DecimalString.NilZero.string_of_uint d)) ->
  is_digit c = true.
Proof.
  destruct d; try apply (uint_chars _ c).
  simpl. intros [<-|[]]. reflexivity.
Qed.

Lemma uint_zero_not_empty (d : Decimal.uint) :
  String.list_ascii_of_string (DecimalString.NilZero.string_of_uint d) <> [].
Proof. destruct d; discriminate. Qed.

(** [str(n)] is made of digits, after a minus sign when [n] is negative. *)
Lemma str_of_Z_chars (z : Z) (c : ascii) :
  In c (str_of_Z z) -> is_digit c = true \/ c = "-"%char.
Proof.
  unfold str_of_Z. destruct z; simpl.
  - intros [<-|[]]. now left.
  - intros H. left. exact (uint_zero_chars _ _ H).
  - intros [<-|H]; [now right|]. left. exact (uint_zero_chars _ _ H).
Qed.

Lemma str_of_Z_number (z : Z) : (0 <= z)%Z -> is_number (str_of_Z z).
Proof.
  intros H. unfold str_of_Z. destruct z; try lia.
  - split; [discriminate|]. intros c [<-|[]]. reflexivity.
  - split; [apply uint_zero_not_empty|]. intros c. apply uint_zero_chars.
Qed.

Lemma occurs_char (p s : str) (c : ascii) : occurs p s -> In c p -> In c s.
Proof. intros (a & b & ->) H. rewrite !in_app_iff. auto. Qed.

Lemma occurs_trans (p l s : str) : occurs p l -> occurs l s -> occurs p s.
Proof.
  intros (a & b & ->) (a' & b' & ->). exists (a' ++ a), (b ++ b').
  now rewrite <- !app_assoc.
Qed.

(** A label holds a character only if it is a parenthesis, a digit or the
    minus sign. *)
Lemma label_chars (z : Z) (c : ascii) :
  In c ("(" ++ str_of_Z z ++ ")") ->
  c = "("%char \/ c = ")"%char \/ c = "-"%char \/ is_digit c = true.
Proof.
  simpl. rewrite in_app_iff. intros [<-|[H|[<-|[]]]]; auto.
  destruct (str_of_Z_chars _ _ H); auto.
Qed.

Lemma label_lacks (z : Z) (c : ascii) :
  c <> "("%char -> c <> ")"%char -> c <> "-"%char -> is_digit c = false ->
  ~ In c ("(" ++ str_of_Z z ++ ")").
Proof.
  intros N1 N2 N3 D H. destruct (label_chars _ _ H) as [E|[E|[E|E]]]; congruence.
Qed.

(** [build_task_line] succeeds when the due date is in order, whatever the
    index, and the line is the label, a blank and the fields joined by
    blanks. *)
Lemma build_task_line_shape (index : Z) (task : str) (priority : option Z)
    (due assigned : option str) :
  build_task_line index task priority due assigned
  = if due_ok due
    then Some (labelled (str_of_Z index)
                 (" " ++ join " " (line_fields task priority due assigned)))
    else None.
Proof.
  unfold build_task_line, line_fields, due_ok, labelled.
  destruct (truthy_int priority);
    destruct due as [[|c d]|]; try destruct (strptime (c :: d));
    destruct assigned as [[|e a]|]; cbn [app join]; rewrite <- ?app_assoc; reflexivity.
Qed.

Lemma format_priority_cases (priority : option Z) :
  In (format_priority priority) [""; "[LOW]"; "[MEDIUM]"; "[HIGH]"; "[URGENT]"].
Proof.
  destruct priority as [[|[[[]|[]|]|[[]|[]|]|]|]|]; simpl; auto 6.
Qed.

Lemma fields_before_due (p : str) (task : str) (priority : option Z) :
  p <> [] -> ~ In " "%char p ->
  (forall t, In t [""; "[LOW]"; "[MEDIUM]"; "[HIGH]"; "[URGENT]"] -> ~ occurs p t) ->
  ~ occurs p task ->
  ~ occurs p (join " " ((if truthy_int priority then [format_priority priority] else [])
                         ++ [task])).
Proof.
  intros N S T K H. apply occurs_join in H as (s & I & O); auto.
  apply in_app_iff in I as [I|[<-|[]]]; [|contradiction].
  destruct (truthy_int priority); [|destruct I]. destruct I as [<-|[]].
  exact (T _ (format_priority_cases priority) O).
Qed.

(** The text of a built line in front of its [Due:] field. *)
Lemma join_fields_due (front : list str) (x : str) (back : list str) :
  front <> [] ->
  join " " (front ++ x :: back)
  = (join " " front ++ " ") ++ x ++ match back with [] => [] | _ => " " ++ join " " back end.
Proof.
  induction front as [|f front IH]; [congruence|]. intros _.
  destruct front as [|f' front].
  - destruct back; cbn [app join]; rewrite <- ?app_assoc, ?app_nil_r; reflexivity.
  - change (join " " ((f :: f' :: front) ++ x :: back))
      with (f ++ " " ++ join " " ((f' :: front) ++ x :: back)).
    rewrite IH by discriminate.
    change (join " " (f :: f' :: front)) with (f ++ " " ++ join " " (f' :: front)).
    now rewrite <- !app_assoc.
Qed.

Lemma search_due_first (pre date post : str) :
  first_after "Due:" pre -> date_shaped date ->
  search_at match_due (pre ++ "Due: " ++ date ++ post) = Some date.
Proof.
  intros F D.
  change ("Due: " ++ date ++ post) with ("Due:" ++ " " ++ date ++ post).
  rewrite (search_at_skip _ _ _ _ match_due_needs_literal F), search_at_unfold.
  change ("Due:" ++ " " ++ date ++ post) with ("Due: " ++ date ++ post).
  now rewrite (match_due_date _ _ D).
Qed.

Lemma label_lacks_due (z : Z) : ~ occurs "Due:" ("(" ++ str_of_Z z ++ ")").
Proof.
  intros H. apply (label_lacks z "D"%char); try discriminate; [reflexivity|].
  apply (occurs_char _ _ _ H). simpl. auto.
Qed.

(** X13.  Renumbering a line that [build_task_line] made is building it
    again with the new index: [complete] gives the lines the label [add]
    would have given them. *)
Theorem renumber_built_line (index : Z) (i : nat) (task line : str)
    (priority : option Z) (due assigned : option str) :
  (0 <= index)%Z ->
  build_task_line index task priority due assigned = Some line ->
  build_task_line (Z.of_nat i + 1) task priority due assigned
  = Some (renumber i line).
Proof.
  intros P. rewrite !build_task_line_shape.
  destruct (due_ok due); [|discriminate]. intros [= <-].
  now rewrite (renumber_labelled _ _ _ (str_of_Z_number _ P)).
Qed.

Lemma renumber_built_line_witness :
  build_task_line (Z.of_nat 0 + 1) "Fix bug" (Some 3%Z) (Some "2024-01-05") None
  = Some (renumber 0 "(7) [HIGH] Fix bug Due: 2024-01-05").
Proof.
  apply (renumber_built_line 7 0 "Fix bug" "(7) [HIGH] Fix bug Due: 2024-01-05").
  - lia.
  - reflexivity.
Defined.

(** X14.  A due date given to [build_task_line] in the form [dddd-dd-dd] is
    the key [extract_due] reads off the line again, when the description does
    not hold [Due:] itself: the line sorts by the date it was given. *)
Theorem extract_due_built_line (index : Z) (task d line : str)
    (priority : option Z) (assigned : option str) :
  ~ occurs "Due:" task -> date_shaped d ->
  build_task_line index task priority (Some d) assigned = Some line ->
  extract_due line = d.
Proof.
  intros K D. rewrite build_task_line_shape.
  destruct (due_ok (Some d)); [|discriminate]. intros [= <-].
  assert (Nd : exists c d', d = c :: d').
  { destruct D as (y1 & ? & ? & ? & ? & ? & ? & ? & -> & _). eauto. }
  destruct Nd as (c & d' & ->).
  set (A := match assigned with
            | Some (c0 :: a) => ["Assigned: " ++ c0 :: a]
            | _ => []
            end).
  set (tok := if truthy_int priority then [format_priority priority] else []).
  assert (E : line_fields task priority (@Some str (c :: d')) assigned
              = (tok ++ [task]) ++ ("Due: " ++ c :: d') :: A).
  { unfold line_fields. fold tok. fold A. now rewrite <- app_assoc. }
  rewrite E, join_fields_due by (now destruct tok).
  set (J := join " " (tok ++ [task])).
  set (post := match A with [] => [] | _ => " " ++ join " " A end).
  match goal with
  | |- extract_due ?t = _ =>
      replace t with (((("(" ++ str_of_Z index ++ ")") ++ " "%char :: J) ++ [" "%char])
                        ++ "Due: " ++ (c :: d') ++ post)
  end.
  2:{ unfold labelled. rewrite <- !app_assoc. cbn [app]. rewrite <- ?app_assoc.
      reflexivity. }
  unfold extract_due. rewrite search_due_first; auto.
  apply first_after_sep; [apply not_In_forallb; reflexivity|].
  intros O. apply occurs_sep in O as [O|O]; [| |apply not_In_forallb; reflexivity].
  - exact (label_lacks_due _ O).
  - subst J tok. revert O. apply fields_before_due; auto.
    + discriminate.
    + apply not_In_forallb. reflexivity.
    + intros t T. simpl in T.
      repeat (destruct T as [<-|T]; [apply not_occurs_by_contains; reflexivity|]).
      destruct T.
Qed.

Lemma extract_due_built_line_witness :
  extract_due "(2) [MEDIUM] Write docs Due: 2024-05-01 Assigned: Due" = "2024-05-01".
Proof.
  apply (extract_due_built_line 2 "Write docs" "2024-05-01"
           "(2) [MEDIUM] Write docs Due: 2024-05-01 Assigned: Due"
           (Some 2%Z) (Some "Due")).
  - apply not_occurs_by_contains. reflexivity.
  - unfold date_shaped. repeat eexists.
  - reflexivity.
Defined.

(** ** The lines of a block that was read *)

Lemma first_after_not_occurs (p g : str) : p <> [] -> first_after p g -> ~ occurs p g.
Proof.
  intros N F (a & b & ->).
  specialize (F a (b ++ p)). rewrite <- !app_assoc in F.
  specialize (F eq_refl). destruct b; simpl in F; [contradiction|discriminate].
Qed.

Lemma lstrip_suffix (s : str) : exists a, s = a ++ lstrip s.
Proof.
  induction s as [|c s [a IH]]; [now exists []|]. simpl.
  destruct (is_space c); [|now exists []].
  exists (c :: a). simpl. now f_equal.
Qed.

Lemma strip_occurs (s : str) : occurs (strip s) s.
Proof.
  unfold strip, rstrip.
  destruct (lstrip_suffix s) as [a E].
  destruct (lstrip_suffix (rev (lstrip s))) as [b F].
  exists a, (rev b). rewrite E at 1. f_equal.
  rewrite <- (rev_involutive (lstrip s)) at 1. rewrite F at 1.
  apply rev_app_distr.
Qed.

Lemma after_break_suffix (c : ascii) (s : str) : exists a, s = a ++ after_break c s.
Proof.
  destruct s as [|d s]; [now exists []|]. simpl.
  destruct (Ascii.eqb c CR && Ascii.eqb d LF); [now exists [d]|now exists []].
Qed.

(** Every line of [splitlines] is a piece of the text. *)
Lemma splitlines_from_occurs (s cur l : str) :
  In l (splitlines_from cur s) -> occurs l (cur ++ s).
Proof.
  remember (length s) as n eqn:L.
  revert s cur L; induction n as [n IH] using lt_wf_ind; intros s cur ->.
  destruct s as [|c s].
  - simpl. destruct cur; [intros []|]. intros [<-|[]]. exists [], []. now rewrite app_nil_r.
  - rewrite splitlines_from_cons. destruct (is_linebreak c).
    + intros [<-|H]; [now exists [], (c :: s)|].
      pose proof (after_break_length c s) as B.
      apply (IH (length (after_break c s)) ltac:(simpl; lia) (after_break c s) []
               eq_refl) in H.
      destruct (after_break_suffix c s) as [a E].
      destruct H as (x & y & F). simpl in F.
      exists (cur ++ c :: a ++ x), y. rewrite E at 1. rewrite F.
      rewrite <- !app_assoc. simpl. now rewrite <- !app_assoc.
    + intros H. apply (IH (length s) ltac:(simpl; lia) s (cur ++ [c]) eq_refl) in H.
      now rewrite <- app_assoc in H.
Qed.

Lemma parse_lines_facts (text : str) (todos : list str) :
  parse_todo_block text = Some todos ->
  has_span text
  /\ Forall no_linebreak todos
  /\ Forall (fun l => ~ occurs TODO_END l) todos
  /\ (forall l rest, todos = l :: rest -> starts_clean l).
Proof.
  rewrite parse_todo_block_unfold.
  destruct (search_block text) as [[[pre inner] post]|] eqn:S; [|discriminate].
  intros [= <-]. apply search_block_Some_iff in S as (-> & F1 & F2).
  split; [now exists pre, inner, post|]. split; [|split].
  - apply splitlines_from_no_linebreak. intros ? [].
  - apply Forall_forall. intros l I O.
    apply splitlines_from_occurs in I. simpl in I.
    apply (first_after_not_occurs TODO_END inner); [discriminate|exact F2|].
    eapply occurs_trans; [exact O|]. eapply occurs_trans; [exact I|apply strip_occurs].
  - unfold splitlines. intros l rest E.
    destruct (strip inner) as [|c r] eqn:St; [discriminate|].
    pose proof (strip_first _ _ _ St) as C.
    rewrite splitlines_from_cons, (not_space_not_linebreak _ C) in E.
    apply splitlines_from_first in E as [x ->]. now exists c, x.
Qed.

Lemma has_span_occurs (text : str) :
  has_span text -> contains TODO_START text = true /\ contains TODO_END text = true.
Proof.
  intros (a & m & b & ->). split; apply contains_iff.
  - now exists a, (m ++ TODO_END ++ b).
  - exists (a ++ TODO_START ++ m), b. now rewrite <- !app_assoc.
Qed.

(** Substituting a block without a backslash in a text with a span puts the
    block where the first span was. *)
Lemma re_sub_block_span (text pre inner post block : str) :
  search_block text = Some (pre, inner, post) -> no_backslash block ->
  exists r, re_sub_block block text = Some (pre ++ block ++ r).
Proof.
  intros S B. rewrite (re_sub_block_literal _ _ B), S.
  unfold re_sub_block. rewrite (parse_template_literal _ B). cbn [option_map]. eauto.
Qed.


(** After a rewrite by [re.sub], the lines written are read back. *)
Lemma rewritten_block_parsed (text : str) (old todos : list str) :
  parse_todo_block text = Some old ->
  Forall no_backslash todos -> Forall no_linebreak todos ->
  Forall (fun l => ~ occurs TODO_END l) todos -> trimmed_lines todos ->
  exists text', re_sub_block (new_block todos) text = Some text'
                /\ parse_todo_block text' = Some todos.
Proof.
  intros P B L E T. rewrite parse_todo_block_unfold in P.
  destruct (search_block text) as [[[pre inner] post]|] eqn:S; [|discriminate].
  destruct (re_sub_block_span _ _ _ _ _ S (new_block_no_backslash _ B)) as [r R].
  exists (pre ++ new_block todos ++ r). split; [exact R|].
  apply search_block_Some_iff in S as (_ & F1 & _). now apply parse_written.
Qed.

Lemma replace_spans_chars (c : ascii) (block : str) (cuts : list (str * str))
    (tail : str) :
  In c (replace_spans block cuts tail) -> In c block \/ In c (assemble cuts tail).
Proof.
  induction cuts as [|[g m] cuts IH]; cbn [replace_spans assemble]; [auto|].
  rewrite !in_app_iff. intros [H|[H|H]]; auto.
  destruct (IH H) as [?|?]; auto 6.
Qed.

Lemma new_block_no_cr (todos : list str) :
  Forall no_linebreak todos -> ~ In CR (new_block todos).
Proof.
  intros H F. unfold new_block in F. rewrite !in_app_iff in F.
  destruct F as [F|[F|[F|[F|F]]]];
    try (revert F; apply not_In_forallb; reflexivity).
  apply In_join in F as [F|(s & S1 & S2)];
    [revert F; apply not_In_forallb; reflexivity|].
  rewrite Forall_forall in H. specialize (H s S1 CR S2).
  vm_compute in H. discriminate H.
Qed.

(** The file that a rewrite by [re.sub] leaves is read as it was written:
    the text that was read holds no carriage return, and the lines written
    hold none. *)
Lemma rewritten_block_plain (text text' : str) (todos : list str) :
  ~ In CR text -> Forall no_backslash todos -> Forall no_linebreak todos ->
  re_sub_block (new_block todos) text = Some text' -> read_text text' = text'.
Proof.
  intros P B L R. apply read_text_plain. intros F.
  destruct (text_has_cuts text) as (cuts & tail & -> & C & T).
  rewrite (re_sub_block_assemble _ _ _ (new_block_no_backslash _ B) C T) in R.
  injection R as <-. apply replace_spans_chars in F as [F|F]; [|exact (P F)].
  exact (new_block_no_cr _ L F).
Qed.

(** The line [build_task_line] makes starts with its label. *)
Lemma labelled_starts_clean (ds rest : str) : starts_clean (labelled ds rest).
Proof. exists "("%char, (ds ++ ")" ++ rest). now split. Qed.

(** X15.  [add] appends: when the block of the file, initialized if it had
    to be, reads as [todos], the block of the file reads afterwards as
    [todos] followed by the new line, numbered one more than the lines there
    were.  This holds when no line holds a backslash and the new line holds
    no line break and no end marker and ends with a character that is not
    white space. *)
Theorem add_appends_task (file task line : str) (priority : option Z)
    (due assigned : option str) (todos : list str) :
  parse_todo_block (read_text (snd (ensure_todo_block file))) = Some todos ->
  Forall no_backslash todos ->
  build_task_line (Z.of_nat (length todos) + 1) task priority due assigned = Some line ->
  no_backslash line -> no_linebreak line -> ~ occurs TODO_END line -> ends_clean line ->
  exists file',
    add (Some file) task priority due assigned = (Done, Some file')
    /\ parse_todo_block (read_text file') = Some (todos ++ [line]).
Proof.
  intros P B L NB NL NE EC.
  set (content := read_text (snd (ensure_todo_block file))) in *.
  destruct (parse_lines_facts _ _ P) as (HS & FL & FE & SC).
  destruct (has_span_occurs _ HS) as [C1 C2].
  assert (B' : Forall no_backslash (todos ++ [line])).
  { apply Forall_app. split; [exact B|now constructor]. }
  assert (L' : Forall no_linebreak (todos ++ [line])).
  { apply Forall_app. split; [exact FL|now constructor]. }
  destruct (rewritten_block_parsed content todos (todos ++ [line]) P B' L')
    as (file' & R & Q).
  - apply Forall_app. split; [exact FE|now constructor].
  - destruct todos as [|l rest].
    + split; [|exact EC]. rewrite build_task_line_shape in L.
      destruct (due_ok due); [|discriminate]. injection L as <-.
      apply labelled_starts_clean.
    + split; [exact (SC l rest eq_refl)|]. now rewrite last_last.
  - exists file'. split.
    + unfold add. cbv zeta. fold content. rewrite P, L.
      unfold write_block. rewrite C1, C2. cbn [andb]. now rewrite R.
    + rewrite (rewritten_block_plain content file' (todos ++ [line])); auto.
      apply read_text_no_cr.
Qed.

(** On a file with a block, its lines ending with CR LF, and on a file
    without a block. *)
Lemma add_appends_task_witness :
  (exists file',
     add (Some (TODO_START ++ [CR; LF] ++ "(1) a b" ++ [CR; LF] ++ "    " ++ TODO_END))
         "Write docs" (Some 2%Z) (Some "2024-05-01") (Some "Ann")
     = (Done, Some file')
     /\ parse_todo_block (read_text file')
        = Some (["(1) a b"] ++ ["(2) [MEDIUM] Write docs Due: 2024-05-01 Assigned: Ann"]))
  /\ (exists file',
        add (Some "x = 1") "Write docs" None None None = (Done, Some file')
        /\ parse_todo_block (read_text file') = Some ([] ++ ["(1) Write docs"])).
Proof.
  split.
  - apply (add_appends_task _ "Write docs"
             "(2) [MEDIUM] Write docs Due: 2024-05-01 Assigned: Ann").
    + reflexivity.
    + repeat constructor. apply not_In_forallb. reflexivity.
    + reflexivity.
    + apply not_In_forallb. reflexivity.
    + intros c H; simpl in H;
        repeat (destruct H as [<-|H]; [reflexivity|]); destruct H.
    + apply not_occurs_by_contains. reflexivity.
    + now exists "(2) [MEDIUM] Write docs Due: 2024-05-01 Assigned: An", "n"%char.
  - apply (add_appends_task "x = 1" "Write docs" "(1) Write docs").
    + reflexivity.
    + constructor.
    + reflexivity.
    + apply not_In_forallb. reflexivity.
    + intros c H; simpl in H;
        repeat (destruct H as [<-|H]; [reflexivity|]); destruct H.
    + apply not_occurs_by_contains. reflexivity.
    + now exists "(1) Write doc", "s"%char.
Defined.

(** ** The block that [complete] writes *)

Lemma labelled_split (ds rest : str) :
  labelled ds rest = ("(" ++ ds ++ ")") ++ rest.
Proof. unfold labelled. now rewrite <- !app_assoc. Qed.






(** ** Templates that [re] refuses *)

Lemma parse_template_first_escape (e : ascii) (t : str) :
  first_escape e t -> bad_escape_letter e -> parse_template t = None.
Proof.
  unfold parse_template. intros (x & y & -> & B) (L & T & G).
  induction x as [|c x IH].
  - destruct e as [[] [] [] [] [] [] [] []]; vm_compute in L, T;
      try discriminate; try (exfalso; apply G; reflexivity); reflexivity.
  - simpl. destruct (Ascii.eqb c BACKSLASH) eqn:E.
    + apply Ascii.eqb_eq in E. exfalso. apply B. now left.
    + simpl. rewrite IH; [reflexivity|]. intros F. apply B. now right.
Qed.

Lemma first_escape_app_l (e : ascii) (p s : str) :
  no_backslash p -> first_escape e s -> first_escape e (p ++ s).
Proof.
  intros P (x & y & -> & B). exists (p ++ x), y. split; [now rewrite <- app_assoc|].
  intros H. apply in_app_iff in H as [H|H]; auto.
Qed.

Lemma first_escape_app_r (e : ascii) (s q : str) :
  first_escape e s -> first_escape e (s ++ q).
Proof.
  intros (x & y & -> & B). exists x, (y ++ q). split; [|exact B].
  now rewrite <- app_assoc.
Qed.

Lemma first_escape_join (e : ascii) (sep : str) (front : list str) (x : str)
    (back : list str) :
  no_backslash sep -> Forall no_backslash front -> first_escape e x ->
  first_escape e (join sep (front ++ x :: back)).
Proof.
  intros S F X. induction F as [|f front Hf _ IH].
  - destruct back as [|b back]; [exact X|]. now apply first_escape_app_r.
  - replace (join sep ((f :: front) ++ x :: back))
      with (f ++ sep ++ join sep (front ++ x :: back)) by (now destruct front).
    now repeat apply first_escape_app_l.
Qed.

(** X17.  A description whose first backslash is followed by an ASCII letter
    that [re] does not know as an escape makes [add] end in [re.error]: when
    the lines of the block hold no backslash, the template [re.sub] is given
    is refused, and the file is left as [ensure_todo_block] left it. *)
Theorem add_bad_escape (file task : str) (e : ascii) (priority : option Z)
    (due assigned : option str) :
  (forall todos,
      parse_todo_block (read_text (snd (ensure_todo_block file))) = Some todos ->
      Forall no_backslash todos) ->
  first_escape e task -> bad_escape_letter e -> due_ok due = true ->
  add (Some file) task priority due assigned
  = (ReError, Some (snd (ensure_todo_block file))).
Proof.
  intros H X E D. unfold add. cbv zeta.
  set (content := read_text (snd (ensure_todo_block file))) in *.
  set (todos := match parse_todo_block content with Some l => l | None => [] end).
  assert (B : Forall no_backslash todos).
  { subst todos. destruct (parse_todo_block content); [now apply H|constructor]. }
  rewrite build_task_line_shape, D.
  destruct (ensure_todo_block_marked file) as [O1 O2]. fold content in O1, O2.
  apply contains_iff in O1, O2.
  unfold write_block. rewrite O1, O2. cbn [andb]. unfold re_sub_block.
  rewrite (parse_template_first_escape e); [reflexivity| |exact E].
  unfold new_block.
  apply first_escape_app_l; [apply not_In_forallb; reflexivity|].
  apply first_escape_app_l; [apply not_In_forallb; reflexivity|].
  apply first_escape_app_r.
  apply first_escape_join; [apply not_In_forallb; reflexivity|exact B|].
  rewrite labelled_split.
  apply first_escape_app_l; [apply label_lacks; try discriminate; reflexivity|].
  apply first_escape_app_l; [apply not_In_forallb; reflexivity|].
  unfold line_fields. apply first_escape_join; [apply not_In_forallb; reflexivity| |exact X].
  destruct (truthy_int priority); constructor; [|constructor].
  pose proof (format_priority_cases priority) as C. simpl in C.
  repeat (destruct C as [<-|C]; [apply not_In_forallb; reflexivity|]). destruct C.
Qed.

Lemma add_bad_escape_witness :
  add (Some blank_line_block) "see C:\data" (Some 1%Z) None None
  = (ReError, Some (snd (ensure_todo_block blank_line_block))).
Proof.
  apply (add_bad_escape blank_line_block "see C:\data" "d"%char).
  - intros todos H. vm_compute in H. injection H as <-.
    repeat constructor; apply not_In_forallb; reflexivity.
  - exists "see C:", "ata". split; [reflexivity|apply not_In_forallb; reflexivity].
  - repeat split; discriminate.
  - reflexivity.
Defined.

(** ** The assignee of a built line *)

Lemma number_text_chars (s : str) (n : Z) (c : ascii) :
  number_text s n -> In c s -> is_digit c = true.
Proof.
  intros [(a & b & -> & A & B & _)|(a & -> & A & _)] H; simpl in H.
  - destruct H as [<-|[<-|[]]]; assumption.
  - destruct H as [<-|[]]. exact (range_digit _ _ _ A eq_refl eq_refl).
Qed.

(** A due date that [strptime] takes is made of digits, dashes and blanks. *)
Lemma accepted_due_chars (due : str) (c : ascii) :
  accepted_due due -> In c due ->
  is_digit c = true \/ c = "-"%char \/ c = " "%char.
Proof.
  intros (ys & ms & ds & y & m & d & -> & Yt & Mt & Dt & _) H.
  rewrite !in_app_iff in H. destruct H as [H|[H|[H|[H|H]]]].
  - destruct Yt as (y1 & y2 & y3 & y4 & -> & F & _).
    rewrite forallb_forall in F. left. apply F.
    simpl in H. simpl. tauto.
  - destruct H as [<-|[]]. auto.
  - left. exact (number_text_chars _ _ _ Mt H).
  - destruct H as [<-|[]]. auto.
  - destruct Dt as [Dt|(a & -> & A & _)].
    + left. exact (number_text_chars _ _ _ Dt H).
    + destruct H as [<-|[<-|[]]]; auto.
      left. exact (range_digit _ _ _ A eq_refl eq_refl).
Qed.

Lemma search_assigned_first (pre w rest : str) :
  first_after "Assigned:" pre -> is_word_run w -> word_ends rest ->
  search_at match_assigned (pre ++ "Assigned: " ++ w ++ rest) = Some w.
Proof.
  intros F W R.
  change ("Assigned: " ++ w ++ rest) with ("Assigned:" ++ " " ++ w ++ rest).
  rewrite (search_at_skip _ _ _ _ match_assigned_needs_literal F), search_at_unfold.
  change ("Assigned:" ++ " " ++ w ++ rest) with ("Assigned: " ++ w ++ rest).
  now rewrite (match_assigned_word _ _ W R).
Qed.

(** The fields in front of the assignee do not hold [Assigned:] when the
    description does not. *)
Lemma fields_before_assigned (task : str) (priority : option Z) (due : option str) :
  ~ occurs "Assigned:" task -> due_ok due = true ->
  ~ occurs "Assigned:" (join " " ((if truthy_int priority then [format_priority priority]
                                   else [])
                                  ++ [task]
                                  ++ match due with
                                     | Some (c :: d) => ["Due: " ++ c :: d]
                                     | _ => []
                                     end)).
Proof.
  intros K D H.
  apply occurs_join in H as (s & I & O); [|discriminate|apply not_In_forallb; reflexivity].
  apply in_app_iff in I as [I|[<-|I]]; [|contradiction|].
  - destruct (truthy_int priority); [|destruct I]. destruct I as [<-|[]].
    pose proof (format_priority_cases priority) as C. simpl in C. revert O.
    repeat (destruct C as [<-|C]; [apply not_occurs_by_contains; reflexivity|]).
    destruct C.
  - destruct due as [[|c d]|]; [destruct I| |destruct I]. destruct I as [<-|[]].
    unfold due_ok in D. destruct (strptime (c :: d)) eqn:S; [|discriminate].
    assert (A : accepted_due (c :: d)) by (apply strptime_accepts; congruence).
    assert (I : In "A"%char ("Due: " ++ c :: d)).
    { apply (occurs_char _ _ _ O). now left. }
    simpl in I. repeat (destruct I as [I|I]; [discriminate|]).
    change (In "A"%char (c :: d)) in I.
    destruct (accepted_due_chars _ _ A I) as [E|[E|E]]; discriminate.
Qed.

(** X18.  An assignee given to [build_task_line] is read off the line again
    by [extract_assigned] as its first run of word characters, in lower
    case, when the description does not hold [Assigned:] itself: the line
    sorts by the first name it was given. *)
Theorem extract_assigned_built_line (index : Z) (task w rest line : str)
    (priority : option Z) (due : option str) :
  ~ occurs "Assigned:" task -> is_word_run w -> word_ends rest ->
  build_task_line index task priority due (Some (w ++ rest)) = Some line ->
  extract_assigned line = lower w.
Proof.
  intros K W R. rewrite build_task_line_shape.
  destruct (due_ok due) eqn:D; [|discriminate]. intros [= <-].
  assert (Nw : exists c a, w ++ rest = c :: a).
  { destruct W as [N _]. destruct w as [|c w]; [congruence|]. simpl. eauto. }
  destruct Nw as (c & a & Ew).
  set (front := (if truthy_int priority then [format_priority priority] else [])
                ++ [task]
                ++ match due with
                   | Some (c :: d) => ["Due: " ++ c :: d]
                   | _ => []
                   end).
  assert (E : line_fields task priority due (Some (w ++ rest))
              = front ++ ["Assigned: " ++ w ++ rest]).
  { unfold line_fields. rewrite Ew. subst front. now rewrite <- !app_assoc. }
  assert (Nf : front <> []).
  { subst front. destruct (truthy_int priority); discriminate. }
  rewrite E, join_fields_due by exact Nf.
  match goal with
  | |- extract_assigned ?t = _ =>
      replace t with (((("(" ++ str_of_Z index ++ ")") ++ " "%char :: join " " front)
                         ++ [" "%char])
                        ++ "Assigned: " ++ w ++ rest)
  end.
  2:{ unfold labelled. rewrite <- !app_assoc. cbn [app]. rewrite <- ?app_assoc.
      now rewrite app_nil_r. }
  unfold extract_assigned. rewrite search_assigned_first; auto.
  apply first_after_sep; [apply not_In_forallb; reflexivity|].
  intros O. apply occurs_sep in O as [O|O]; [| |apply not_In_forallb; reflexivity].
  - apply (label_lacks index "A"%char); try discriminate; [reflexivity|].
    apply (occurs_char _ _ _ O). now left.
  - revert O. subst front. now apply fields_before_assigned.
Qed.

Lemma extract_assigned_built_line_witness :
  extract_assigned "(3) [LOW] Call the bank Due: 2024-02-29 Assigned: Ann-Marie Lee"
  = lower "Ann".
Proof.
  apply (extract_assigned_built_line 3 "Call the bank" "Ann" "-Marie Lee"
           "(3) [LOW] Call the bank Due: 2024-02-29 Assigned: Ann-Marie Lee"
           (Some 1%Z) (Some "2024-02-29")).
  - apply not_occurs_by_contains. reflexivity.
  - split; [discriminate|].
    intros c H; simpl in H; repeat (destruct H as [<-|H]; [reflexivity|]); destruct H.
  - intros c more [= <- _]. reflexivity.
  - reflexivity.
Defined.

(** ** Cleaning a file without a span *)

(** X19.  [clean] removes nothing from a text without a span.  When both
    markers occur in it, the end marker in front of the start marker, the
    file is reported as cleaned all the same and is written again with the
    text that was read: its line ends are line feeds then, and a file
    without a carriage return is what it was. *)
Theorem clean_file_without_span (file : str) :
  ~ has_span (read_text file) ->
  fst (clean_file file)
  = contains TODO_START (read_text file) && contains TODO_END (read_text file)
  /\ read_text (snd (clean_file file)) = read_text file
  /\ (fst (clean_file file) = true -> snd (clean_file file) = read_text file)
  /\ (~ In CR file -> snd (clean_file file) = file).
Proof.
  intros N. apply search_block_None_iff in N. unfold clean_file. cbv zeta.
  destruct (contains TODO_START (read_text file) && contains TODO_END (read_text file));
    cbn [fst snd].
  - rewrite strip_spans_unfold, N.
    repeat split; [apply read_text_twice|apply read_text_plain].
  - repeat split. discriminate.
Qed.

(** On a file that holds the end marker, CR LF and the start marker, and on
    the same file without the line end. *)
Lemma clean_file_without_span_witness :
  snd (clean_file (TODO_END ++ [CR; LF] ++ TODO_START)) = TODO_END ++ [LF] ++ TODO_START
  /\ snd (clean_file end_before_start) = end_before_start.
Proof.
  split.
  - refine (proj1 (proj2 (proj2
              (clean_file_without_span (TODO_END ++ [CR; LF] ++ TODO_START) _))) _).
    + apply no_span_by_search. reflexivity.
    + reflexivity.
  - refine (proj2 (proj2 (proj2 (clean_file_without_span end_before_start _))) _).
    + apply no_span_by_search. reflexivity.
    + apply not_In_forallb. reflexivity.
Defined.
